(** * The agent pipeline of FullAgentMaker: orchestrator, storage and agents

    A shallow embedding of
    - [server/agents/AgentOrchestrator.ts] (the run loop, start, pause, resume),
    - [server/storage.ts] ([MemStorage]) and the [AgentState] of
      [shared/schema.ts],
    - [server/gemini.ts] ([GeminiService.generateContent]),
    - [server/agents/RequirementAgent.ts], [FrontendAgent.ts],
      [BackendAgent.ts] and [ValidatorAgent.ts],
    followed by the properties of the pipeline that the specification states.

    Conventions.  A JavaScript string is a Rocq [string]; its characters stand
    for the code units of the text (the text is taken byte-wise, so [length]
    and [substring] agree with JavaScript on ASCII text, and [toLowerCase]
    folds the letters A-Z only).  A value of type [any] is a [JsVal].  An
    [async] method is run to completion: one call of [startProject],
    [pauseProject] or [resumeProject] is one step of the model, and the
    interleaving of two calls is outside it.  A thrown [Error] is its
    message. *)

From stdpp Require Import base option list gmap strings pretty.
From Stdlib Require Import ZArith String Ascii Lia.

Local Open Scope string_scope.
Local Open Scope Z_scope.

(** ** Results and the state-and-exception monad *)

Inductive Res (A : Type) : Type :=
| Ok (a : A)
| Threw (message : string).
Arguments Ok {A} a.
Arguments Threw {A} message.

Definition ST (S A : Type) : Type := S -> Res A * S.

Definition ret {S A} (a : A) : ST S A := fun s => (Ok a, s).

Definition throw {S A} (message : string) : ST S A := fun s => (Threw message, s).

Definition bind {S A B} (m : ST S A) (k : A -> ST S B) : ST S B :=
  fun s =>
    match m s with
    | (Ok a, s') => k a s'
    | (Threw e, s') => (Threw e, s')
    end.

(** [try { m } catch (error) { h error.message }]: the state reached when the
    exception was thrown is the one the handler starts from. *)
Definition tryCatch {S A} (m : ST S A) (h : string -> ST S A) : ST S A :=
  fun s =>
    match m s with
    | (Ok a, s') => (Ok a, s')
    | (Threw e, s') => h e s'
    end.

(** [attempt m] runs [m] and hands its outcome, returned or thrown, to the
    continuation; it never throws itself. *)
Definition attempt {S A} (m : ST S A) : ST S (Res A) :=
  fun s => let '(r, s') := m s in (Ok r, s').

Notation "'do' x <- m ; k" := (bind m (fun x => k))
  (at level 10, x name, m at level 100, k at level 200).
Notation "m ;; k" := (bind m (fun _ => k))
  (at level 100, k at level 200, right associativity).

(** ** JavaScript values *)

#[warnings="-register-all"]
Inductive JsVal : Type :=
| JUndefined
| JNull
| JBool (b : bool)
| JNum (n : Z)
| JStr (s : string)
| JArr (items : list JsVal)
| JObj (fields : list (string * JsVal)).

Module JsString.

Definition quote : string := String (ascii_of_nat 34) EmptyString.
Definition newline : string := String (ascii_of_nat 10) EmptyString.

(** [s.startsWith(p)] *)
Definition startsWith (s p : string) : bool := String.prefix p s.

(** [s.includes(sub)] *)
Fixpoint includes (s sub : string) : bool :=
  String.prefix sub s ||
  match s with
  | EmptyString => false
  | String _ s' => includes s' sub
  end.

Definition lowerChar (c : ascii) : ascii :=
  let n := nat_of_ascii c in
  if ((65 <=? n)%nat && (n <=? 90)%nat)%bool then ascii_of_nat (n + 32) else c.

(** [s.toLowerCase()] *)
Fixpoint toLowerCase (s : string) : string :=
  match s with
  | EmptyString => EmptyString
  | String c s' => String (lowerChar c) (toLowerCase s')
  end.

Definition isSpace (c : ascii) : bool :=
  let n := nat_of_ascii c in
  ((n =? 32)%nat || ((9 <=? n)%nat && (n <=? 13)%nat))%bool.

Fixpoint trimStart (s : string) : string :=
  match s with
  | EmptyString => EmptyString
  | String c s' => if isSpace c then trimStart s' else s
  end.

Fixpoint trimEnd (s : string) : string :=
  match s with
  | EmptyString => EmptyString
  | String c s' =>
      match trimEnd s' with
      | EmptyString => if isSpace c then EmptyString else String c EmptyString
      | t => String c t
      end
  end.

(** [s.trim()] *)
Definition trim (s : string) : string := trimEnd (trimStart s).

(** [s.substring(1)] *)
Definition substring1 (s : string) : string :=
  match s with
  | EmptyString => EmptyString
  | String _ s' => s'
  end.

(** [s.split(sep)] for a separator of one character *)
Fixpoint split (sep : ascii) (s : string) : list string :=
  match s with
  | EmptyString => [EmptyString]
  | String c s' =>
      if Ascii.eqb c sep then EmptyString :: split sep s'
      else
        match split sep s' with
        | l :: ls => String c l :: ls
        | [] => [String c EmptyString]
        end
  end.

Definition lines (s : string) : list string := split (ascii_of_nat 10) s.

(** [parts.join(sep)] *)
Definition join (sep : string) (parts : list string) : string :=
  String.concat sep parts.

(** [(s1, s2)] where [s1] is the longest prefix of [s] whose characters
    satisfy [p] *)
Fixpoint span (p : ascii -> bool) (s : string) : string * string :=
  match s with
  | EmptyString => (EmptyString, EmptyString)
  | String c s' =>
      if p c then let '(a, b) := span p s' in (String c a, b)
      else (EmptyString, s)
  end.

Definition ofNat (n : nat) : string := pretty n.
Definition ofZ (n : Z) : string := pretty n.

End JsString.

Module JsArray.

(** [xs.includes(x)] on an array of strings *)
Definition includes (xs : list string) (x : string) : bool :=
  existsb (String.eqb x) xs.

End JsArray.

Module Js.

(** ToBoolean *)
Definition truthy (v : JsVal) : bool :=
  match v with
  | JUndefined | JNull => false
  | JBool b => b
  | JNum n => negb (n =? 0)
  | JStr s => negb (String.eqb s EmptyString)
  | JArr _ | JObj _ => true
  end.

Fixpoint lookupField (fields : list (string * JsVal)) (k : string) : JsVal :=
  match fields with
  | [] => JUndefined
  | (k', v) :: rest => if String.eqb k k' then v else lookupField rest k
  end.

(** [v.k] on a value that is neither [undefined] nor [null] *)
Definition member (v : JsVal) (k : string) : JsVal :=
  match v with
  | JObj fields => lookupField fields k
  | JStr s => if String.eqb k "length" then JNum (Z.of_nat (String.length s)) else JUndefined
  | JArr items => if String.eqb k "length" then JNum (Z.of_nat (List.length items)) else JUndefined
  | _ => JUndefined
  end.

(** [v.k]: a [TypeError] on [undefined] and [null] *)
Definition get (v : JsVal) (k : string) : Res JsVal :=
  match v with
  | JUndefined =>
      Threw ("Cannot read properties of undefined (reading '" ++ k ++ "')")
  | JNull =>
      Threw ("Cannot read properties of null (reading '" ++ k ++ "')")
  | _ => Ok (member v k)
  end.

(** [v?.k] *)
Definition optGet (v : JsVal) (k : string) : JsVal :=
  match v with
  | JUndefined | JNull => JUndefined
  | _ => member v k
  end.

(** [a || b] *)
Definition or (a b : JsVal) : JsVal := if truthy a then a else b.

(** ToString, as a template literal applies it.  An array joins the
    strings of its items, [undefined] and [null] items giving the empty
    string. *)
Fixpoint toString (v : JsVal) : string :=
  match v with
  | JUndefined => "undefined"
  | JNull => "null"
  | JBool true => "true"
  | JBool false => "false"
  | JNum n => JsString.ofZ n
  | JStr s => s
  | JArr items =>
      JsString.join ","
        (List.map (fun i => match i with
                         | JUndefined | JNull => EmptyString
                         | _ => toString i
                         end) items)
  | JObj _ => "[object Object]"
  end.

End Js.

(** ** The data model ([shared/schema.ts]) *)

(** [ProjectStatus]: pending, running, paused, completed, error *)
Inductive ProjectStatus : Type :=
| S_pending
| S_running
| S_paused
| S_completed
| S_error.

(** [LogLevel]: info, warn, error, success *)
Inductive LogLevel : Type :=
| L_info
| L_warn
| L_error
| L_success.

(** An entry of [AgentState.errors]: [{ agent, error, timestamp }] *)
Record AgentError : Type := mkAgentError {
  e_agent : string;
  e_error : string;
  e_timestamp : string
}.

Record AgentState : Type := mkAgentState {
  currentAgent : option string;
  completedAgents : list string;
  agentProgress : gmap string Z;
  agentOutputs : gmap string JsVal;
  errors : list AgentError
}.

Record InsertProject : Type := mkInsertProject {
  ip_name : string;
  ip_description : string;
  ip_config : JsVal
}.

Record Project : Type := mkProject {
  p_id : string;
  p_name : string;
  p_description : string;
  config : JsVal;
  status : ProjectStatus;
  state : option AgentState;
  createdAt : string;
  updatedAt : string
}.

Record InsertAgentLog : Type := mkInsertAgentLog {
  il_projectId : string;
  il_agentName : string;
  il_level : LogLevel;
  il_message : string;
  il_metadata : JsVal
}.

Record AgentLog : Type := mkAgentLog {
  l_id : string;
  l_projectId : string;
  l_agentName : string;
  l_level : LogLevel;
  l_message : string;
  l_metadata : JsVal;
  l_timestamp : string
}.

Record InsertProjectFile : Type := mkInsertProjectFile {
  if_projectId : string;
  if_path : string;
  if_content : string;
  if_size : Z;
  if_language : option string
}.

Record ProjectFile : Type := mkProjectFile {
  f_id : string;
  f_projectId : string;
  f_path : string;
  f_content : string;
  f_size : Z;
  f_language : option string;
  f_createdAt : string
}.

(** ** Agents' results and the events of the orchestrator *)

(** An element of [AgentResult.files] *)
Record GeneratedFile : Type := mkGeneratedFile {
  path : string;
  content : string;
  language : option string
}.

(** [AgentResult]; an optional field that is left out is [None]. *)
Record AgentResult : Type := mkAgentResult {
  success : bool;
  output : option JsVal;
  error : option string;
  files : option (list GeneratedFile)
}.

(** What the orchestrator (an [EventEmitter]) emits, by event name. *)
Inductive Event : Type :=
| Ev_log (entry : InsertAgentLog)
| Ev_progress (agent : string) (progress : Z)
| Ev_project_started (projectId : string)
| Ev_agent_started (projectId agent : string)
| Ev_agent_completed (projectId agent : string)
| Ev_agent_error (projectId agent message : string)
| Ev_project_completed (projectId : string)
| Ev_project_paused (projectId : string)
| Ev_project_resumed (projectId : string)
| Ev_project_error (projectId message : string).

(** ** The world outside the program *)

(** What the program cannot decide: the identifiers [randomUUID()] draws,
    the dates [new Date()] reads, and the answers of the generation backend
    ([ai.models.generateContent]: the text of the response, which may be
    missing, or an error).  Each is given by the number of earlier draws,
    reads or calls, so that every sequence of answers is covered. *)
Record Env : Type := mkEnv {
  randomUUID : nat -> string;
  dateNow : nat -> string;
  aiGenerate : nat -> string -> option string -> Res (option string)
}.

(** The part of the process state that agents act on: the log records of
    [MemStorage.agentLogs], the events emitted so far, the calls made to the
    generation backend (prompt and system instruction), and the numbers of
    identifiers drawn and dates read. *)
Record IO : Type := mkIO {
  agentLogs : gmap string AgentLog;
  emitted : list Event;
  aiCalls : list (string * string);
  uuids : nat;
  clock : nat
}.

(** The journal is not program state: it records, in order, the writes to a
    project's status and state that took effect and the calls of
    [agent.execute] with their outcome. *)
Inductive JournalEntry : Type :=
| J_status (projectId : string) (s : ProjectStatus)
| J_state (projectId : string) (s : AgentState)
| J_execute (projectId agent : string) (outcome : Res AgentResult).

(** [MemStorage.projects] and [MemStorage.projectFiles], the agents' part,
    and the journal.  ([MemStorage.users] plays no part in the pipeline.) *)
Record World : Type := mkWorld {
  projects : gmap string Project;
  projectFiles : gmap string ProjectFile;
  io : IO;
  journal : list JournalEntry
}.

Definition emptyIO : IO :=
  {| agentLogs := ∅; emitted := []; aiCalls := []; uuids := 0%nat; clock := 0%nat |}.

(** [new MemStorage()] *)
Definition emptyWorld : World :=
  {| projects := ∅; projectFiles := ∅; io := emptyIO; journal := [] |}.

Definition setProjects (ps : gmap string Project) (w : World) : World :=
  {| projects := ps; projectFiles := projectFiles w; io := io w; journal := journal w |}.

Definition setProjectFiles (fs : gmap string ProjectFile) (w : World) : World :=
  {| projects := projects w; projectFiles := fs; io := io w; journal := journal w |}.

Definition setIO (i : IO) (w : World) : World :=
  {| projects := projects w; projectFiles := projectFiles w; io := i; journal := journal w |}.

Definition record (j : JournalEntry) (w : World) : World :=
  {| projects := projects w; projectFiles := projectFiles w; io := io w;
     journal := journal w ++ [j] |}.

(** Running a computation of the agents' part inside the world. *)
Definition liftIO {A} (m : ST IO A) : ST World A :=
  fun w => let '(r, i) := m (io w) in (r, setIO i w).

Section Primitives.

Variable env : Env.

(** [randomUUID()] *)
Definition newUUID : ST IO string :=
  fun i =>
    (Ok (randomUUID env (uuids i)),
     {| agentLogs := agentLogs i; emitted := emitted i; aiCalls := aiCalls i;
        uuids := S (uuids i); clock := clock i |}).

(** [new Date()], also [new Date().toISOString()] *)
Definition newDate : ST IO string :=
  fun i =>
    (Ok (dateNow env (clock i)),
     {| agentLogs := agentLogs i; emitted := emitted i; aiCalls := aiCalls i;
        uuids := uuids i; clock := S (clock i) |}).

(** [orchestrator.emit(name, payload)] *)
Definition emit (e : Event) : ST IO unit :=
  fun i =>
    (Ok tt,
     {| agentLogs := agentLogs i; emitted := emitted i ++ [e]; aiCalls := aiCalls i;
        uuids := uuids i; clock := clock i |}).

(** [MemStorage.addAgentLog] *)
Definition addAgentLog (insertLog : InsertAgentLog) : ST IO AgentLog :=
  do id <- newUUID;
  do now <- newDate;
  let log :=
    {| l_id := id;
       l_projectId := il_projectId insertLog;
       l_agentName := il_agentName insertLog;
       l_level := il_level insertLog;
       l_message := il_message insertLog;
       l_metadata := Js.or (il_metadata insertLog) JNull;
       l_timestamp := now |} in
  fun i =>
    (Ok log,
     {| agentLogs := <[id := log]> (agentLogs i); emitted := emitted i;
        aiCalls := aiCalls i; uuids := uuids i; clock := clock i |}).

(** *** [GeminiService] ([server/gemini.ts]) *)

Record AIResponse : Type := mkAIResponse {
  ai_content : string;
  ai_success : bool;
  ai_error : option string
}.

(** [a || b] on strings *)
Definition orString (a b : string) : string :=
  if String.eqb a EmptyString then b else a.

(** The response that [generateContent] makes of the answer of the
    generation backend to the call number [n]: the text of the answer, or,
    when the call threw, the failure with its reason. *)
Definition respond (n : nat) (prompt systemInstruction : string) : AIResponse :=
  let cfg :=
    if String.eqb systemInstruction EmptyString then None
    else Some systemInstruction in
  match aiGenerate env n prompt cfg with
  | Ok text =>
      {| ai_content := default EmptyString text;
         ai_success := true;
         ai_error := None |}
  | Threw message =>
      {| ai_content := EmptyString;
         ai_success := false;
         ai_error := Some (orString message "Failed to generate content") |}
  end.

(** [GeminiService.generateContent(prompt, systemInstruction)] *)
Definition generateContent (prompt systemInstruction : string) : ST IO AIResponse :=
  fun i =>
    (Ok (respond (List.length (aiCalls i)) prompt systemInstruction),
     {| agentLogs := agentLogs i; emitted := emitted i;
        aiCalls := aiCalls i ++ [(prompt, systemInstruction)];
        uuids := uuids i; clock := clock i |}).

(** *** [MemStorage] ([server/storage.ts]) *)

(** [getProject(id)] *)
Definition getProject (id : string) : ST World (option Project) :=
  fun w => (Ok (projects w !! id), w).

(** [createProject(insertProject)] *)
Definition createProject (insertProject : InsertProject) : ST World Project :=
  do id <- liftIO newUUID;
  do now <- liftIO newDate;
  let project :=
    {| p_id := id;
       p_name := ip_name insertProject;
       p_description := ip_description insertProject;
       config := ip_config insertProject;
       status := S_pending;
       state := None;
       createdAt := now;
       updatedAt := now |} in
  fun w => (Ok project, setProjects (<[id := project]> (projects w)) w).

Definition withStatus (s : ProjectStatus) (now : string) (p : Project) : Project :=
  {| p_id := p_id p; p_name := p_name p; p_description := p_description p;
     config := config p; status := s; state := state p;
     createdAt := createdAt p; updatedAt := now |}.

Definition withState (s : AgentState) (now : string) (p : Project) : Project :=
  {| p_id := p_id p; p_name := p_name p; p_description := p_description p;
     config := config p; status := status p; state := Some s;
     createdAt := createdAt p; updatedAt := now |}.

(** [updateProjectStatus(id, status)] *)
Definition updateProjectStatus (id : string) (s : ProjectStatus) : ST World unit :=
  do found <- getProject id;
  match found with
  | Some project =>
      do now <- liftIO newDate;
      fun w =>
        (Ok tt,
         record (J_status id s)
           (setProjects (<[id := withStatus s now project]> (projects w)) w))
  | None => ret tt
  end.

(** [updateProjectState(id, state)] *)
Definition updateProjectState (id : string) (s : AgentState) : ST World unit :=
  do found <- getProject id;
  match found with
  | Some project =>
      do now <- liftIO newDate;
      fun w =>
        (Ok tt,
         record (J_state id s)
           (setProjects (<[id := withState s now project]> (projects w)) w))
  | None => ret tt
  end.

(** [addProjectFile(insertFile)] *)
Definition addProjectFile (insertFile : InsertProjectFile) : ST World ProjectFile :=
  do id <- liftIO newUUID;
  do now <- liftIO newDate;
  let file :=
    {| f_id := id;
       f_projectId := if_projectId insertFile;
       f_path := if_path insertFile;
       f_content := if_content insertFile;
       f_size := if_size insertFile;
       f_language :=
         match if_language insertFile with
         | Some l => if String.eqb l EmptyString then None else Some l
         | None => None
         end;
       f_createdAt := now |} in
  fun w => (Ok file, setProjectFiles (<[id := file]> (projectFiles w)) w).

(** [updateProjectFile(id, content)] *)
Definition updateProjectFile (id : string) (newContent : string) : ST World unit :=
  fun w =>
    match projectFiles w !! id with
    | Some file =>
        let file' :=
          {| f_id := f_id file; f_projectId := f_projectId file;
             f_path := f_path file;
             f_content := newContent;
             f_size := Z.of_nat (String.length newContent);
             f_language := f_language file; f_createdAt := f_createdAt file |} in
        (Ok tt, setProjectFiles (<[id := file']> (projectFiles w)) w)
    | None => (Ok tt, w)
    end.

End Primitives.

(** ** The orchestrator ([server/agents/AgentOrchestrator.ts]) *)

Record AgentConfig : Type := mkAgentConfig {
  name : string;
  description : string;
  dependencies : list string
}.

(** [AgentOrchestrator.agentConfigs] *)
Definition agentConfigs : list AgentConfig :=
  [ {| name := "Requirement"; description := "Parse user requirements";
       dependencies := [] |};
    {| name := "Frontend"; description := "Generate frontend code";
       dependencies := ["Requirement"] |};
    {| name := "Backend"; description := "Generate backend code";
       dependencies := ["Requirement"] |};
    {| name := "Validator"; description := "Validate generated code";
       dependencies := ["Frontend"; "Backend"] |};
    {| name := "Deployment"; description := "Package for deployment";
       dependencies := ["Validator"] |} ].

(** [BaseAgent.execute(projectId, config, previousOutputs)] of one agent.  An
    agent reaches the storage through [BaseAgent.log] only, so it acts on the
    agents' part of the world. *)
Definition Agent : Type := string -> JsVal -> gmap string JsVal -> ST IO AgentResult.

(** The state that [startProject] installs and that [executeAgentPipeline]
    falls back on. *)
Definition initialState : AgentState :=
  {| currentAgent := None; completedAgents := []; agentProgress := ∅;
     agentOutputs := ∅; errors := [] |}.

Definition setCurrentAgent (a : option string) (s : AgentState) : AgentState :=
  {| currentAgent := a; completedAgents := completedAgents s;
     agentProgress := agentProgress s; agentOutputs := agentOutputs s;
     errors := errors s |}.

(** [state.completedAgents.push(name); state.agentOutputs[name] = output;
    state.agentProgress[name] = 100] *)
Definition complete (agent : string) (out : JsVal) (s : AgentState) : AgentState :=
  {| currentAgent := currentAgent s;
     completedAgents := completedAgents s ++ [agent];
     agentProgress := <[agent := 100]> (agentProgress s);
     agentOutputs := <[agent := out]> (agentOutputs s);
     errors := errors s |}.

(** [state.errors.push(e)] *)
Definition pushError (e : AgentError) (s : AgentState) : AgentState :=
  {| currentAgent := currentAgent s; completedAgents := completedAgents s;
     agentProgress := agentProgress s; agentOutputs := agentOutputs s;
     errors := errors s ++ [e] |}.

(** [`${v}`] for an optional string *)
Definition showOptional (v : option string) : string := default "undefined" v.

Section Orchestrator.

Variable env : Env.

(** [AgentOrchestrator.agents], the registry that [initializeAgents] fills *)
Variable agents : gmap string Agent.

Definition emitW (e : Event) : ST World unit := liftIO (emit e).

(** [await agent.execute(projectId, project.config, state.agentOutputs)],
    with its outcome: the result it returns or the error it throws *)
Definition execute (agent : Agent) (projectId agentName : string) (cfg : JsVal)
    (previousOutputs : gmap string JsVal) : ST World (Res AgentResult) :=
  fun w =>
    let '(r, i) := agent projectId cfg previousOutputs (io w) in
    (Ok r, record (J_execute projectId agentName r) (setIO i w)).

(** [for (const file of result.files) await storage.addProjectFile(...)] *)
Fixpoint saveFiles (projectId : string) (fs : list GeneratedFile) : ST World unit :=
  match fs with
  | [] => ret tt
  | file :: rest =>
      addProjectFile env
        {| if_projectId := projectId;
           if_path := path file;
           if_content := content file;
           if_size := Z.of_nat (String.length (content file));
           if_language := language file |} ;;
      saveFiles projectId rest
  end.

(** The [catch (error)] block of the loop body *)
Definition onAgentError (projectId agentName : string) (s : AgentState)
    (message : string) : ST World AgentState :=
  do now <- liftIO (newDate env);
  let s := pushError {| e_agent := agentName; e_error := message; e_timestamp := now |} s in
  updateProjectState env projectId s ;;
  emitW (Ev_agent_error projectId agentName message) ;;
  throw message.

(** The part of the loop body that executes the agent of [agentConfig],
    from [state.currentAgent = agentConfig.name] on; [continue] is the rest
    of the loop, entered with the local [state] when the agent succeeded. *)
Definition runAgent (projectId : string) (project : Project)
    (agentConfig : AgentConfig) (s : AgentState)
    (continue : AgentState -> ST World AgentState) : ST World AgentState :=
  let s := setCurrentAgent (Some (name agentConfig)) s in
  updateProjectState env projectId s ;;
  emitW (Ev_agent_started projectId (name agentConfig)) ;;
  match agents !! name agentConfig with
  | None => throw ("Agent " ++ name agentConfig ++ " not found")
  | Some agent =>
      do outcome <- execute agent projectId (name agentConfig)
                      (config project) (agentOutputs s);
      match outcome with
      | Ok result =>
          if success result then
            let s := complete (name agentConfig)
                       (default JUndefined (output result)) s in
            match files result with
            | Some fs => saveFiles projectId fs
            | None => ret tt
            end ;;
            emitW (Ev_agent_completed projectId (name agentConfig)) ;;
            let s := setCurrentAgent None s in
            updateProjectState env projectId s ;;
            continue s
          else
            do now <- liftIO (newDate env);
            let s :=
              pushError
                {| e_agent := name agentConfig;
                   e_error := orString (default EmptyString (error result))
                                       "Unknown error";
                   e_timestamp := now |} s in
            onAgentError projectId (name agentConfig) s
              ("Agent " ++ name agentConfig ++ " failed: "
                 ++ showOptional (error result))
      | Threw message =>
          onAgentError projectId (name agentConfig) s message
      end
  end.

(** [dependencies.filter(dep => !completedAgents.includes(dep))] *)
Definition missingDeps (agentConfig : AgentConfig) (completed : list string) : list string :=
  List.filter (fun dep => negb (JsArray.includes completed dep))
              (dependencies agentConfig).

(** [dependencies.every(dep => completedAgents.includes(dep))] *)
Definition dependenciesMet (agentConfig : AgentConfig) (completed : list string) : bool :=
  forallb (fun dep => JsArray.includes completed dep) (dependencies agentConfig).

Definition dependenciesNotMet (agentConfig : AgentConfig) (completed : list string) : string :=
  "Agent " ++ name agentConfig ++ " dependencies not met: "
    ++ JsString.join ", " (missingDeps agentConfig completed).

(** The [for (const agentConfig of this.agentConfigs)] loop of
    [executeAgentPipeline], on the configurations still to visit.  [s] is the
    local [state]; the loop returns it when it runs to its end. *)
Fixpoint pipelineLoop (projectId : string) (project : Project)
    (configs : list AgentConfig) (s : AgentState) : ST World AgentState :=
  match configs with
  | [] => ret s
  | agentConfig :: rest =>
      if JsArray.includes (completedAgents s) (name agentConfig) then
        pipelineLoop projectId project rest s
      else if negb (dependenciesMet agentConfig (completedAgents s)) then
        throw (dependenciesNotMet agentConfig (completedAgents s))
      else
        runAgent projectId project agentConfig s
          (pipelineLoop projectId project rest)
  end.

(** [executeAgentPipeline(projectId, project)] *)
Definition executeAgentPipeline (projectId : string) (project : Project) : ST World unit :=
  let s := default initialState (state project) in
  pipelineLoop projectId project agentConfigs s ;;
  updateProjectStatus env projectId S_completed ;;
  emitW (Ev_project_completed projectId).

(** The [project] that [getProject] returned is the very object that
    [MemStorage] holds and that [updateProjectStatus] and [updateProjectState]
    assign to: its fields are read as the storage has them at that moment. *)
Definition deref (projectId : string) (project : Project) : ST World Project :=
  fun w => (Ok (default project (projects w !! projectId)), w).

(** [startProject(projectId)].  The pipeline reads [project.state] through
    the stored object, hence as the state just installed. *)
Definition startProject (projectId : string) : ST World unit :=
  tryCatch
    (do found <- getProject projectId;
     match found with
     | None => throw "Project not found"
     | Some project =>
         updateProjectStatus env projectId S_running ;;
         updateProjectState env projectId initialState ;;
         emitW (Ev_project_started projectId) ;;
         do project <- deref projectId project;
         executeAgentPipeline projectId project
     end)
    (fun message =>
       updateProjectStatus env projectId S_error ;;
       emitW (Ev_project_error projectId message)).

(** [pauseProject(projectId)] *)
Definition pauseProject (projectId : string) : ST World unit :=
  updateProjectStatus env projectId S_paused ;;
  emitW (Ev_project_paused projectId).

(** [resumeProject(projectId)] *)
Definition resumeProject (projectId : string) : ST World unit :=
  do found <- getProject projectId;
  match found with
  | None => throw "Project not found"
  | Some project =>
      updateProjectStatus env projectId S_running ;;
      emitW (Ev_project_resumed projectId) ;;
      do project <- deref projectId project;
      executeAgentPipeline projectId project
  end.

End Orchestrator.

(** ** The agents *)

(** The lines of a template literal *)
Definition text (ls : list string) : string := JsString.join JsString.newline ls.

(** [prompt] *)
Definition requirementPrompt (description projectName stack database features : string) : string :=
  text
  [ "";
    "Analyze the following project requirements and create a " ++
      "structured technical specification:";
    "";
    "Project Description: " ++ description;
    "Project Name: " ++ projectName;
    "Tech Stack: " ++ stack;
    "Database: " ++ database;
    "Features: " ++ features;
    "";
    "Please provide a detailed technical specification including:";
    "1. Core features breakdown";
    "2. Database schema requirements (if applicable)";
    "3. API endpoints needed";
    "4. Frontend components structure";
    "5. Technical architecture decisions";
    "6. Third-party integrations required";
    "";
    "Format your response as a comprehensive technical specification " ++
      "document.";
    "" ].

(** [systemInstruction] *)
Definition requirementSystemInstruction : string :=
  "You are a senior technical architect. Analyze the user " ++
  "requirements and create a detailed, implementable technical " ++
  "specification. Be specific about technologies, architecture " ++
  "patterns, and implementation details.".

(** [prompt] *)
Definition frontendPrompt (specification stack projectName : string) : string :=
  text
  [ "";
    "Based on the following technical specification, generate a " ++
      "complete React frontend application:";
    "";
    specification;
    "";
    "Configuration:";
    "- Tech Stack: " ++ stack;
    "- Project Name: " ++ projectName;
    "";
    "Please generate:";
    "1. Complete React components with TypeScript";
    "2. Tailwind CSS styling (dark mode compatible)";
    "3. React Router setup if needed";
    "4. Form handling with validation";
    "5. State management setup";
    "6. API integration (mock endpoints)";
    "";
    "Provide the complete file structure and all component code. " ++
      "Make it production-ready with proper TypeScript types, error " ++
      "handling, and responsive design.";
    "";
    "Focus on:";
    "- Modern React patterns (hooks, functional components)";
    "- Accessibility (ARIA labels, semantic HTML)";
    "- Performance optimization";
    "- Clean, maintainable code structure";
    "" ].

(** [systemInstruction] *)
Definition frontendSystemInstruction : string :=
  "You are a senior React developer. Generate complete, " ++
  "production-ready React components with TypeScript. Use modern " ++
  "patterns, include proper TypeScript types, implement error " ++
  "handling, and ensure responsive design. All code should be clean, " ++
  "well-structured, and follow React best practices.".

(** [prompt] *)
Definition backendPrompt (specification stack database projectName : string) : string :=
  text
  [ "";
    "Based on the following technical specification, generate a " ++
      "complete Node.js backend application:";
    "";
    specification;
    "";
    "Configuration:";
    "- Tech Stack: " ++ stack;
    "- Database: " ++ database;
    "- Project Name: " ++ projectName;
    "";
    "Please generate:";
    "1. Express.js server with TypeScript";
    "2. RESTful API endpoints";
    "3. Database models and schemas";
    "4. Authentication middleware (if needed)";
    "5. Input validation and error handling";
    "6. Environment configuration";
    "7. Database connection setup";
    "";
    "Provide the complete file structure and all backend code. Make " ++
      "it production-ready with proper error handling, validation, " ++
      "logging, and security measures.";
    "";
    "Focus on:";
    "- RESTful API design principles";
    "- Proper HTTP status codes";
    "- Input validation and sanitization";
    "- Security best practices";
    "- Clean architecture patterns";
    "- Database optimization";
    "" ].

(** [systemInstruction] *)
Definition backendSystemInstruction : string :=
  "You are a senior backend developer. Generate complete, " ++
  "production-ready Node.js/Express backend code with TypeScript. " ++
  "Include proper error handling, validation, security measures, and " ++
  "follow REST API best practices. All code should be " ++
  "well-structured and follow Node.js conventions.".

(** The operand of the conditional inside [validationPrompt] *)
Definition backendPart (backend : string) (hasBackend : bool) : string :=
  if hasBackend then
    text
    [ "";
      "BACKEND CODE:";
      backend;
      "" ]
  else "NO BACKEND - Frontend only application".

(** [validationPrompt] *)
Definition validationPrompt (frontend backend : string) (hasBackend : bool) : string :=
  text
  [ "";
    "Please perform a comprehensive code review and validation of " ++
      "the following generated code:";
    "";
    "FRONTEND CODE:";
    frontend;
    "";
    backendPart backend hasBackend;
    "";
    "Please validate:";
    "1. Code quality and best practices";
    "2. TypeScript type safety";
    "3. Error handling";
    "4. Security vulnerabilities";
    "5. Performance issues";
    "6. Accessibility compliance";
    "7. Code structure and organization";
    "8. Integration between frontend and backend (if applicable)";
    "9. Missing dependencies or imports";
    "10. Potential runtime errors";
    "";
    "Provide:";
    "- List of critical issues that must be fixed";
    "- List of minor improvements";
    "- Overall code quality score (1-10)";
    "- Recommendations for production readiness";
    "- Specific fixes for any identified issues";
    "" ].

(** [systemInstruction] *)
Definition validationSystemInstruction : string :=
  "You are a senior code reviewer and quality assurance engineer. " ++
  "Perform a thorough code review focusing on security, performance, " ++
  "maintainability, and best practices. Identify critical issues " ++
  "that could cause runtime errors or security vulnerabilities. " ++
  "Provide specific, actionable feedback.".

(** [fixPrompt] *)
Definition fixPrompt (issues frontend : string) : string :=
  text
  [ "";
    "The following critical issues were found in the generated code:";
    "";
    issues;
    "";
    "Original code context:";
    frontend;
    "";
    "Please generate fixes for these critical issues. Provide the " ++
      "corrected code files with the fixes applied. Focus only on " ++
      "fixing the critical issues without changing the overall " ++
      "structure or functionality.";
    "" ].

(** [systemInstruction] *)
Definition fixSystemInstruction : string :=
  "You are a senior developer fixing critical code issues. Generate " ++
  "only the corrected files that fix the specific issues mentioned. " ++
  "Maintain the original functionality while addressing security, " ++
  "error handling, and critical bugs.".


Definition liftRes {S A} (r : Res A) : ST S A := fun s => (r, s).

(** [v === s] for a string literal [s] *)
Definition isString (s : string) (v : JsVal) : bool :=
  match v with
  | JStr s' => String.eqb s' s
  | _ => false
  end.

(** [v > 0].  A number is compared as it is and a boolean as 0 or 1; every
    other operand is taken as [NaN] (a string that spells a number is not
    converted). *)
Definition gtZero (v : JsVal) : bool :=
  match v with
  | JNum n => 0 <? n
  | JBool b => b
  | _ => false
  end.

(** [items.join(sep)] on an array of values *)
Definition joinArray (sep : string) (items : list JsVal) : string :=
  JsString.join sep
    (List.map (fun i => match i with
                     | JUndefined | JNull => EmptyString
                     | _ => Js.toString i
                     end) items).

(** [(v || '').toLowerCase()] *)
Definition lowerCased (v : JsVal) : Res string :=
  match Js.or v (JStr EmptyString) with
  | JStr s => Ok (JsString.toLowerCase s)
  | _ => Threw "(intermediate value).toLowerCase is not a function"
  end.

(** The text-to-artifact heuristics of the agents ([parseRequirements],
    [parseCodeIntoFiles], [extractArchitectureInfo], [extractEndpoints], and
    [parseFloat] on a matched numeral) are functions of the generated text;
    the pipeline does not depend on what they compute, and they are taken as
    given.  [parseCodeIntoFiles] reads [config.projectName] and may throw. *)
Record Heuristics : Type := mkHeuristics {
  parseRequirements : string -> JsVal;
  frontendParseCodeIntoFiles : string -> JsVal -> Res (list GeneratedFile);
  frontendExtractArchitectureInfo : string -> JsVal;
  backendParseCodeIntoFiles : string -> JsVal -> Res (list GeneratedFile);
  backendExtractArchitectureInfo : string -> JsVal;
  backendExtractEndpoints : string -> JsVal;
  parseFloat : string -> JsVal
}.

Definition failure (message : string) : AgentResult :=
  {| success := false; output := None; error := Some message; files := None |}.

Section BaseAgent.

Variable env : Env.

(** [this.name] *)
Variable agentName : string.

(** [BaseAgent.log(projectId, level, message)] *)
Definition log (projectId : string) (level : LogLevel) (message : string) : ST IO unit :=
  let logEntry :=
    {| il_projectId := projectId; il_agentName := agentName; il_level := level;
       il_message := message; il_metadata := JUndefined |} in
  addAgentLog env logEntry ;;
  emit (Ev_log logEntry).

(** [BaseAgent.updateProgress(projectId, progress)] *)
Definition updateProgress (projectId : string) (progress : Z) : ST IO unit :=
  emit (Ev_progress agentName progress).

End BaseAgent.

(** *** [RequirementAgent] *)

(** [config.features?.join(", ") || "None"] *)
Definition featuresText (features : JsVal) : Res string :=
  match features with
  | JUndefined | JNull => Ok "None"
  | JArr items => Ok (orString (joinArray ", " items) "None")
  | _ => Threw "config.features?.join is not a function"
  end.

Section RequirementAgent.

Variable env : Env.
Variable h : Heuristics.
Variable agentName : string.

(** [RequirementAgent.execute] *)
Definition requirementExecute (projectId : string) (cfg : JsVal)
    (previousOutputs : gmap string JsVal) : ST IO AgentResult :=
  tryCatch
    (log env agentName projectId L_info "Starting requirement analysis..." ;;
     updateProgress agentName projectId 10 ;;
     do description <- liftRes (Js.get cfg "description");
     do features <- liftRes (featuresText (Js.member cfg "features"));
     let prompt :=
       requirementPrompt (Js.toString description)
         (Js.toString (Js.member cfg "projectName"))
         (Js.toString (Js.member cfg "stack"))
         (Js.toString (Js.member cfg "database"))
         features in
     updateProgress agentName projectId 50 ;;
     do response <- generateContent env prompt requirementSystemInstruction;
     if negb (ai_success response) then
       throw (orString (default EmptyString (ai_error response))
                       "Failed to analyze requirements")
     else
       updateProgress agentName projectId 80 ;;
       let structuredRequirements := parseRequirements h (ai_content response) in
       log env agentName projectId L_success
         "Requirements analysis completed successfully" ;;
       updateProgress agentName projectId 100 ;;
       ret {| success := true;
              output := Some (JObj [ ("specification", JStr (ai_content response));
                                     ("structured", structuredRequirements);
                                     ("config", cfg) ]);
              error := None;
              files := None |})
    (fun message =>
       log env agentName projectId L_error
         ("Requirement analysis failed: " ++ message) ;;
       ret (failure message)).

End RequirementAgent.

(** *** [FrontendAgent] *)

Section FrontendAgent.

Variable env : Env.
Variable h : Heuristics.
Variable agentName : string.

(** [FrontendAgent.execute] *)
Definition frontendExecute (projectId : string) (cfg : JsVal)
    (previousOutputs : gmap string JsVal) : ST IO AgentResult :=
  tryCatch
    (log env agentName projectId L_info "Starting frontend development..." ;;
     updateProgress agentName projectId 10 ;;
     let requirements := default JUndefined (previousOutputs !! "Requirement") in
     if negb (Js.truthy requirements) then
       throw "Requirements not found from previous agent"
     else
       do stack <- liftRes (Js.get cfg "stack");
       let prompt :=
         frontendPrompt (Js.toString (Js.member requirements "specification"))
           (Js.toString stack)
           (Js.toString (Js.member cfg "projectName")) in
       updateProgress agentName projectId 40 ;;
       do response <- generateContent env prompt frontendSystemInstruction;
       if negb (ai_success response) then
         throw (orString (default EmptyString (ai_error response))
                         "Failed to generate frontend code")
       else
         updateProgress agentName projectId 70 ;;
         do fs <- liftRes (frontendParseCodeIntoFiles h (ai_content response) cfg);
         log env agentName projectId L_success
           ("Frontend development completed. Generated "
              ++ JsString.ofNat (List.length fs) ++ " files.") ;;
         updateProgress agentName projectId 100 ;;
         ret {| success := true;
                output :=
                  Some (JObj [ ("codeGenerated", JStr (ai_content response));
                               ("fileCount", JNum (Z.of_nat (List.length fs)));
                               ("architecture",
                                 frontendExtractArchitectureInfo h (ai_content response)) ]);
                error := None;
                files := Some fs |})
    (fun message =>
       log env agentName projectId L_error
         ("Frontend development failed: " ++ message) ;;
       ret (failure message)).

End FrontendAgent.

(** *** [BackendAgent] *)

Definition backendKeywords : list string :=
  [ "database"; "api"; "authentication"; "auth"; "login"; "register";
    "server"; "backend"; "storage"; "persistence"; "user management" ].

(** [BackendAgent.checkIfBackendNeeded(config, requirements)], as the
    condition that [execute] makes of it *)
Definition checkIfBackendNeeded (cfg requirements : JsVal) : Res bool :=
  match Js.get cfg "description" with
  | Threw e => Threw e
  | Ok d =>
      match lowerCased d with
      | Threw e => Threw e
      | Ok description =>
          match Js.get requirements "specification" with
          | Threw e => Threw e
          | Ok sp =>
              match lowerCased sp with
              | Threw e => Threw e
              | Ok specification =>
                  let features := Js.member cfg "features" in
                  Ok (existsb (fun keyword =>
                                 JsString.includes description keyword
                                 || JsString.includes specification keyword)
                              backendKeywords
                      || negb (isString "none" (Js.member cfg "database"))
                      || (Js.truthy features && gtZero (Js.member features "length")))
              end
          end
      end
  end.

(** The output by which the Backend stage marks itself skipped *)
Definition frontendOnly : JsVal :=
  JObj [ ("type", JStr "frontend-only"); ("message", JStr "No backend required") ].

Section BackendAgent.

Variable env : Env.
Variable h : Heuristics.
Variable agentName : string.

(** [BackendAgent.execute] *)
Definition backendExecute (projectId : string) (cfg : JsVal)
    (previousOutputs : gmap string JsVal) : ST IO AgentResult :=
  tryCatch
    (log env agentName projectId L_info "Starting backend development..." ;;
     updateProgress agentName projectId 10 ;;
     let requirements := default JUndefined (previousOutputs !! "Requirement") in
     if negb (Js.truthy requirements) then
       throw "Requirements not found from previous agent"
     else
       do needsBackend <- liftRes (checkIfBackendNeeded cfg requirements);
       if negb needsBackend then
         log env agentName projectId L_info
           "Backend not required for this project type" ;;
         ret {| success := true; output := Some frontendOnly;
                error := None; files := None |}
       else
         let prompt :=
           backendPrompt (Js.toString (Js.member requirements "specification"))
             (Js.toString (Js.member cfg "stack"))
             (Js.toString (Js.member cfg "database"))
             (Js.toString (Js.member cfg "projectName")) in
         updateProgress agentName projectId 40 ;;
         do response <- generateContent env prompt backendSystemInstruction;
         if negb (ai_success response) then
           throw (orString (default EmptyString (ai_error response))
                           "Failed to generate backend code")
         else
           updateProgress agentName projectId 70 ;;
           do fs <- liftRes (backendParseCodeIntoFiles h (ai_content response) cfg);
           log env agentName projectId L_success
             ("Backend development completed. Generated "
                ++ JsString.ofNat (List.length fs) ++ " files.") ;;
           updateProgress agentName projectId 100 ;;
           ret {| success := true;
                  output :=
                    Some (JObj [ ("codeGenerated", JStr (ai_content response));
                                 ("fileCount", JNum (Z.of_nat (List.length fs)));
                                 ("architecture",
                                   backendExtractArchitectureInfo h (ai_content response));
                                 ("endpoints",
                                   backendExtractEndpoints h (ai_content response)) ]);
                  error := None;
                  files := Some fs |})
    (fun message =>
       log env agentName projectId L_error
         ("Backend development failed: " ++ message) ;;
       ret (failure message)).

End BackendAgent.

(** *** [ValidatorAgent] *)

Module Validator.

Definition isDigit (c : ascii) : bool :=
  let n := nat_of_ascii c in ((48 <=? n)%nat && (n <=? 57)%nat)%bool.

Definition isLetter (c : ascii) : bool :=
  let n := nat_of_ascii c in
  (((65 <=? n)%nat && (n <=? 90)%nat) || ((97 <=? n)%nat && (n <=? 122)%nat))%bool.

(** The class [[a-zA-Z0-9_-]] *)
Definition isNameChar (c : ascii) : bool :=
  let n := nat_of_ascii c in
  (isLetter c || isDigit c || (n =? 95)%nat || (n =? 45)%nat)%bool.

Definition isChar (n : nat) (c : ascii) : bool := (nat_of_ascii c =? n)%nat.

(** The first match of [/(\d+(?:\.\d+)?)/] in [s] *)
Fixpoint firstNumber (s : string) : option string :=
  match s with
  | EmptyString => None
  | String c s' =>
      if isDigit c then
        let '(whole, rest) := JsString.span isDigit s in
        match rest with
        | String dot rest' =>
            let '(fraction, _) := JsString.span isDigit rest' in
            if (isChar 46 dot && negb (String.eqb fraction EmptyString))%bool
            then Some (whole ++ "." ++ fraction)
            else Some whole
        | EmptyString => Some whole
        end
      else firstNumber s'
  end.

Inductive Section_ : Type :=
| NoSection
| Critical
| Minor.

Record ValidationResults : Type := mkValidationResults {
  criticalIssues : list string;
  minorIssues : list string;
  qualityScore : JsVal
}.

(** The bullet that [parseValidationResults] looks for besides [-] and [*],
    by the bytes of the source text *)
Definition bullet : string :=
  String (ascii_of_nat 195) (String (ascii_of_nat 162)
    (String (ascii_of_nat 226) (String (ascii_of_nat 130) (String (ascii_of_nat 172)
      (String (ascii_of_nat 194) (String (ascii_of_nat 162) EmptyString)))))).

Definition mentions (lower : string) (words : list string) : bool :=
  existsb (JsString.includes lower) words.

Section Parse.

Variable h : Heuristics.

(** The body of the loop over the lines in [parseValidationResults] *)
Definition parseLine (acc : Section_ * ValidationResults) (line : string)
    : Section_ * ValidationResults :=
  let '(currentSection, results) := acc in
  let lower := JsString.toLowerCase line in
  let '(currentSection, results) :=
    if mentions lower ["critical"; "error"; "security"] then (Critical, results)
    else if mentions lower ["minor"; "improvement"; "suggestion"] then (Minor, results)
    else if mentions lower ["score"; "rating"] then
      match firstNumber line with
      | Some scoreMatch =>
          (currentSection,
           {| criticalIssues := criticalIssues results;
              minorIssues := minorIssues results;
              qualityScore := parseFloat h scoreMatch |})
      | None => (currentSection, results)
      end
    else (currentSection, results) in
  let trimmed := JsString.trim line in
  if (JsString.startsWith trimmed "-" || JsString.startsWith trimmed "*"
      || JsString.startsWith trimmed bullet)%bool then
    let issue := JsString.trim (JsString.substring1 trimmed) in
    if (10 <? String.length issue)%nat then
      match currentSection with
      | Critical =>
          (currentSection,
           {| criticalIssues := criticalIssues results ++ [issue];
              minorIssues := minorIssues results;
              qualityScore := qualityScore results |})
      | Minor =>
          (currentSection,
           {| criticalIssues := criticalIssues results;
              minorIssues := minorIssues results ++ [issue];
              qualityScore := qualityScore results |})
      | NoSection => (currentSection, results)
      end
    else (currentSection, results)
  else (currentSection, results).

(** [ValidatorAgent.parseValidationResults(content)] *)
Definition parseValidationResults (report : string) : ValidationResults :=
  snd (fold_left parseLine (JsString.lines report)
         (NoSection,
          {| criticalIssues := []; minorIssues := []; qualityScore := JNum 7 |})).

End Parse.

(** The matches of [/```[\s\S]*?```/g]: a fence opens a block, the next
    fence closes it.  [skip] counts the characters of a fence still to pass
    over, [block] is the text of the open block, if any. *)
Definition fence : string := "```".

Fixpoint codeBlocksFrom (s : string) (skip : nat) (block : option string) : list string :=
  match s with
  | EmptyString => []
  | String c s' =>
      match skip with
      | S k => codeBlocksFrom s' k block
      | O =>
          if JsString.startsWith s fence then
            match block with
            | None => codeBlocksFrom s' 2 (Some EmptyString)
            | Some body => (fence ++ body ++ fence) :: codeBlocksFrom s' 2 None
            end
          else
            match block with
            | None => codeBlocksFrom s' 0 None
            | Some body => codeBlocksFrom s' 0 (Some (body ++ String c EmptyString))
            end
      end
  end.

(** [content.match(/```[\s\S]*?```/g) || []] *)
Definition codeBlocks (s : string) : list string := codeBlocksFrom s 0 None.

(** The first match of [/([a-zA-Z0-9_-]+\.[a-zA-Z]+)/], as its group *)
Definition nameAt (s : string) : option string :=
  let '(stem, rest) := JsString.span isNameChar s in
  match stem, rest with
  | String _ _, String dot rest' =>
      let '(extension, _) := JsString.span isLetter rest' in
      if (isChar 46 dot && negb (String.eqb extension EmptyString))%bool
      then Some (stem ++ "." ++ extension)
      else None
  | _, _ => None
  end.

Fixpoint firstName (s : string) : option string :=
  match nameAt s with
  | Some m => Some m
  | None =>
      match s with
      | EmptyString => None
      | String _ s' => firstName s'
      end
  end.

(** The first match of [/q([^q]+)q/] for a quote character [q], as its
    group *)
Fixpoint firstQuoted (q : nat) (s : string) : option string :=
  match s with
  | EmptyString => None
  | String c s' =>
      let '(inner, rest) := JsString.span (fun x => negb (isChar q x)) s' in
      match inner, rest with
      | String _ _, String _ _ =>
          if isChar q c then Some inner else firstQuoted q s'
      | _, _ => firstQuoted q s'
      end
  end.

(** [ValidatorAgent.extractFilename(line)] *)
Definition extractFilename (line : string) : option string :=
  let accept (m : option string) : option string :=
    match m with
    | Some g => if JsString.includes g "." then Some g else None
    | None => None
    end in
  match accept (firstName line) with
  | Some g => Some g
  | None =>
      match accept (firstQuoted 96 line) with
      | Some g => Some g
      | None =>
          match accept (firstQuoted 34 line) with
          | Some g => Some g
          | None => accept (firstQuoted 39 line)
          end
      end
  end.

(** [lines.slice(1, -1)] *)
Definition inner (ls : list string) : list string := removelast (tl ls).

(** The body of the loop of [parseFixedFiles], for the block of index [i] *)
Definition fixedFile (i : nat) (block : string) : list GeneratedFile :=
  let ls := JsString.lines block in
  let firstLine := hd EmptyString ls in
  let named (extension : string) : string :=
    orString (default EmptyString (extractFilename firstLine))
             ("Fixed" ++ JsString.ofNat (i + 1) ++ extension) in
  let '(filename, lang) :=
    if JsString.includes firstLine ".tsx" then (named ".tsx", "typescript")
    else if JsString.includes firstLine ".ts" then (named ".ts", "typescript")
    else if JsString.includes firstLine ".jsx" then (named ".jsx", "javascript")
    else if JsString.includes firstLine ".js" then (named ".js", "javascript")
    else (EmptyString, "javascript") in
  if String.eqb filename EmptyString then []
  else [ {| path := "/src/fixed/" ++ filename;
            content := JsString.join JsString.newline (inner ls);
            language := Some lang |} ].

(** [ValidatorAgent.parseFixedFiles(content)] *)
Definition parseFixedFiles (response : string) : list GeneratedFile :=
  List.concat (imap fixedFile (codeBlocks response)).

Record CodeToValidate : Type := mkCodeToValidate {
  cv_frontend : JsVal;
  cv_backend : JsVal;
  hasBackend : bool
}.

(** The entry of [fixes] in the output, for one file *)
Definition fileValue (f : GeneratedFile) : JsVal :=
  JObj [ ("path", JStr (path f)); ("content", JStr (content f));
         ("language", match language f with Some l => JStr l | None => JUndefined end) ].

Definition strings (xs : list string) : JsVal := JArr (List.map JStr xs).

(** [codeToValidate], from the outputs of the Frontend and Backend stages *)
Definition codeToValidate (frontendOutput backendOutput : JsVal) : CodeToValidate :=
  {| cv_frontend := Js.or (Js.member frontendOutput "codeGenerated") (JStr EmptyString);
     cv_backend := Js.or (Js.optGet backendOutput "codeGenerated") (JStr EmptyString);
     hasBackend := negb (isString "frontend-only" (Js.optGet backendOutput "type")) |}.

(** The [validationPrompt] of [execute], for the code to validate *)
Definition validationRequest (code : CodeToValidate) : string :=
  validationPrompt (Js.toString (cv_frontend code))
                   (Js.toString (cv_backend code)) (hasBackend code).

(** The [fixPrompt] of [generateFixes] *)
Definition fixRequest (issues : list string) (code : CodeToValidate) : string :=
  fixPrompt
    (JsString.join JsString.newline
       (imap (fun index issue => JsString.ofNat (index + 1) ++ ". " ++ issue) issues))
    (Js.toString (cv_frontend code)).

(** What [generateFixes] makes of the response to the fix request: the
    files parsed from it when the call succeeded with some content, and no
    file otherwise. *)
Definition fixesFrom (response : AIResponse) : list GeneratedFile :=
  if (ai_success response && negb (String.eqb (ai_content response) EmptyString))%bool
  then parseFixedFiles (ai_content response)
  else [].

(** The result of [execute] when critical issues were found *)
Definition needsFixes (report : string) (results : ValidationResults)
    (fixes : list GeneratedFile) : AgentResult :=
  {| success := true;
     output :=
       Some (JObj [ ("validationReport", JStr report);
                    ("criticalIssues", strings (criticalIssues results));
                    ("minorIssues", strings (minorIssues results));
                    ("qualityScore", qualityScore results);
                    ("fixes", JArr (List.map fileValue fixes));
                    ("isProductionReady", JBool false) ]);
     error := None;
     files := Some fixes |}.

(** The result of [execute] when no critical issue was found *)
Definition productionReady (report : string) (results : ValidationResults) : AgentResult :=
  {| success := true;
     output :=
       Some (JObj [ ("validationReport", JStr report);
                    ("criticalIssues", JArr []);
                    ("minorIssues", strings (minorIssues results));
                    ("qualityScore", qualityScore results);
                    ("isProductionReady", JBool true) ]);
     error := None;
     files := None |}.

Section Execute.

Variable env : Env.
Variable h : Heuristics.
Variable agentName : string.

(** [ValidatorAgent.generateFixes(criticalIssues, codeToValidate)] *)
Definition generateFixes (issues : list string) (code : CodeToValidate)
    : ST IO (list GeneratedFile) :=
  if (List.length issues =? 0)%nat then ret []
  else
    tryCatch
      (do response <- generateContent env (fixRequest issues code) fixSystemInstruction;
       ret (fixesFrom response))
      (fun _ => ret []).

(** [ValidatorAgent.execute] *)
Definition validatorExecute (projectId : string) (cfg : JsVal)
    (previousOutputs : gmap string JsVal) : ST IO AgentResult :=
  tryCatch
    (log env agentName projectId L_info "Starting code validation..." ;;
     updateProgress agentName projectId 10 ;;
     let frontendOutput := default JUndefined (previousOutputs !! "Frontend") in
     let backendOutput := default JUndefined (previousOutputs !! "Backend") in
     if negb (Js.truthy frontendOutput) then
       throw "Frontend output not found from previous agent"
     else
       let code := codeToValidate frontendOutput backendOutput in
       updateProgress agentName projectId 30 ;;
       do response <-
         generateContent env (validationRequest code) validationSystemInstruction;
       if negb (ai_success response) then
         throw (orString (default EmptyString (ai_error response))
                         "Failed to validate code")
       else
         updateProgress agentName projectId 70 ;;
         let validationResults := parseValidationResults h (ai_content response) in
         let hasCriticalIssues :=
           (0 <? List.length (criticalIssues validationResults))%nat in
         if hasCriticalIssues then
           log env agentName projectId L_warn
             ("Found " ++ JsString.ofNat (List.length (criticalIssues validationResults))
                ++ " critical issues that need fixing") ;;
           do fixes <- generateFixes (criticalIssues validationResults) code;
           updateProgress agentName projectId 90 ;;
           log env agentName projectId L_success
             "Code validation completed with fixes applied" ;;
           ret (needsFixes (ai_content response) validationResults fixes)
         else
           log env agentName projectId L_success
             "Code validation passed - no critical issues found" ;;
           updateProgress agentName projectId 100 ;;
           ret (productionReady (ai_content response) validationResults))
    (fun message =>
       log env agentName projectId L_error ("Code validation failed: " ++ message) ;;
       ret (failure message)).

End Execute.

End Validator.

(** [AgentOrchestrator.initializeAgents()].  [DeploymentAgent.ts] is not
    among the sources: the Deployment agent is a parameter. *)
Definition initializeAgents (env : Env) (h : Heuristics) (deployment : Agent)
    : gmap string Agent :=
  <["Deployment" := deployment]>
    (<["Validator" := Validator.validatorExecute env h "Validator"]>
       (<["Backend" := backendExecute env h "Backend"]>
          (<["Frontend" := frontendExecute env h "Frontend"]>
             (<["Requirement" := requirementExecute env h "Requirement"]> ∅)))).

(** * Observations of a world *)

(** The status of a project, if it is stored *)
Definition statusOf (pid : string) (w : World) : option ProjectStatus :=
  status <$> projects w !! pid.

(** The execution state of a project, if it is stored and has one *)
Definition stateOf (pid : string) (w : World) : option AgentState :=
  projects w !! pid ≫= state.

(** The agents that were executed, in order, with whether they reported
    success, returned a failure or threw *)
Inductive Verdict : Type :=
| Succeeded
| Failed (reason : option string)
| Thrown (message : string).

Definition verdict (o : Res AgentResult) : Verdict :=
  match o with
  | Ok r => if success r then Succeeded else Failed (error r)
  | Threw e => Thrown e
  end.

Fixpoint executions (j : list JournalEntry) : list (string * Verdict) :=
  match j with
  | [] => []
  | J_execute _ a o :: rest => (a, verdict o) :: executions rest
  | _ :: rest => executions rest
  end.

Fixpoint statusWrites (j : list JournalEntry) : list ProjectStatus :=
  match j with
  | [] => []
  | J_status _ st :: rest => st :: statusWrites rest
  | _ :: rest => statusWrites rest
  end.

(** The events of the orchestrator itself (not [log] and [progress]) *)
Definition lifecycle (events : list Event) : list Event :=
  List.filter (fun e => match e with
                        | Ev_log _ | Ev_progress _ _ => false
                        | _ => true
                        end) events.

(** The files stored for a project, by path and size *)
Definition filesOf (w : World) : list (string * Z) :=
  (fun f => (f_path f.2, f_size f.2)) <$> map_to_list (projectFiles w).

(** The status writes recorded so far are [l]. *)
Definition statusesWritten (l : list ProjectStatus) (w : World) : Prop :=
  statusWrites (journal w) = l.

(** * Specifications: triples, invariants and selection *)

(** [hoare P m Q]: from a state where [P] holds, [m] ends, with a result or
    an exception, in a state where [Q] holds of the outcome. *)
Definition hoare {S A} (P : S -> Prop) (m : ST S A) (Q : Res A -> S -> Prop) : Prop :=
  forall s, P s -> Q (m s).1 (m s).2.

(** A state is well formed for project [pid], given the journal [j], when
    - every completed agent is declared and all its declared dependencies
      stand before it in [completedAgents];
    - every completed agent was executed for this project with a result that
      reported success, and [agentOutputs] holds the output of that result;
    - [agentOutputs] has an entry for an agent exactly when the agent is in
      [completedAgents]. *)
Definition stateOk (pid : string) (j : list JournalEntry) (s : AgentState) : Prop :=
  (forall (i : nat) (n : string), completedAgents s !! i = Some n ->
     exists c, c ∈ agentConfigs /\ name c = n /\
       forall d, d ∈ dependencies c -> d ∈ take i (completedAgents s))
  /\ (forall n, n ∈ completedAgents s ->
        exists r, J_execute pid n (Ok r) ∈ j /\ success r = true /\
          agentOutputs s !! n = Some (default JUndefined (output r)))
  /\ (forall n, n ∈ completedAgents s <-> is_Some (agentOutputs s !! n)).

(** All the declared agents are completed in [s]. *)
Definition allCompleted (s : AgentState) : Prop :=
  forall c, c ∈ agentConfigs -> name c ∈ completedAgents s.

Definition fileOk (f : ProjectFile) : Prop :=
  f_size f = Z.of_nat (String.length (f_content f)).

Definition projectOk (j : list JournalEntry) (pid : string) (p : Project) : Prop :=
  stateOk pid j (default initialState (state p))
  /\ (status p = S_completed -> allCompleted (default initialState (state p))).

(** The invariant of the world: every stored file has the size of its
    content, every project is well formed, and so is every state that was
    ever written. *)
Definition Inv (w : World) : Prop :=
  map_Forall (fun _ f => fileOk f) (projectFiles w)
  /\ (forall pid p, projects w !! pid = Some p -> projectOk (journal w) pid p)
  /\ (forall pid s, J_state pid s ∈ journal w -> stateOk pid (journal w) s).

Definition hasStatus (pid : string) (st : ProjectStatus) (w : World) : Prop :=
  exists p, projects w !! pid = Some p /\ status p = st.

Definition hasState (pid : string) (s : AgentState) (w : World) : Prop :=
  exists p, projects w !! pid = Some p /\ default initialState (state p) = s.

(** [returns R]: the computation returns, with a value and in a state that
    [R] relates. *)
Definition returns {S A} (R : A -> S -> Prop) : Res A -> S -> Prop :=
  fun r s => exists a, r = Ok a /\ R a s.

(** [throws R]: the computation throws, in a state where [R] holds. *)
Definition throws {S A} (R : S -> Prop) : Res A -> S -> Prop :=
  fun r s => exists e, r = Threw e /\ R s.

(** Inside an iteration of the loop for project [pid]: the invariant holds,
    the project stands at status [st], and the local state [s] is well
    formed. *)
Definition during (pid : string) (st : ProjectStatus) (s : AgentState) (w : World) : Prop :=
  Inv w /\ hasStatus pid st w /\ stateOk pid (journal w) s.

(** Between two iterations the local state is moreover the stored one. *)
Definition between (pid : string) (st : ProjectStatus) (s : AgentState) (w : World) : Prop :=
  during pid st s w /\ hasState pid s w.

(** What the loop leaves behind: when it runs to its end, every agent of
    the configurations it went through is completed; when it throws, the
    invariant still holds and the status is as it was. *)
Definition loopPost (pid : string) (st : ProjectStatus) (configs : list AgentConfig)
    (s : AgentState) : Res AgentState -> World -> Prop :=
  fun r w =>
    match r with
    | Ok s' =>
        between pid st s' w
        /\ (forall n, n ∈ completedAgents s -> n ∈ completedAgents s')
        /\ (forall c, c ∈ configs -> name c ∈ completedAgents s')
    | Threw _ => Inv w /\ hasStatus pid st w
    end.

(** The pipeline ends with the status [completed], or throws and leaves the
    status as it found it. *)
Definition pipelinePost (pid : string) (st : ProjectStatus) : Res unit -> World -> Prop :=
  fun r w =>
    Inv w /\
    match r with
    | Ok _ => hasStatus pid S_completed w
    | Threw _ => hasStatus pid st w
    end.

(** [agentConfig] is not completed and all its dependencies are. *)
Definition eligible (completed : list string) (agentConfig : AgentConfig) : bool :=
  negb (JsArray.includes completed (name agentConfig))
  && dependenciesMet agentConfig completed.

(** The first declaration, in the order of the configuration, that is not
    completed and whose dependencies are all completed. *)
Definition firstEligible (configs : list AgentConfig) (completed : list string)
    : option AgentConfig :=
  List.find (eligible completed) configs.

(** Every dependency of a declaration is the name of a declaration that
    stands before it ([earlier] holds the names met so far). *)
Fixpoint wellOrdered (earlier : list string) (configs : list AgentConfig) : bool :=
  match configs with
  | [] => true
  | c :: rest =>
      forallb (JsArray.includes earlier) (dependencies c)
      && wellOrdered (name c :: earlier) rest
  end.

(** A property of the world that the run loop cannot disturb: it is kept
    whatever becomes of the agents' part, of the table of projects and of
    the files, and when a write of a state or an execution is recorded. *)
Definition framed (F : World -> Prop) : Prop :=
  (forall w i, F w -> F (setIO i w))
  /\ (forall w ps, F w -> F (setProjects ps w))
  /\ (forall w fs, F w -> F (setProjectFiles fs w))
  /\ (forall w pid s, F w -> F (record (J_state pid s) w))
  /\ (forall w pid n o, F w -> F (record (J_execute pid n o) w)).

(** The calls made so far to the generation backend are [cs]. *)
Definition calls (cs : list (string * string)) (i : IO) : Prop := aiCalls i = cs.

Section Reachable.

Variable env : Env.
Variable agents : gmap string Agent.

(** The worlds that the program can reach from the empty storage: by
    creating projects, by starting, pausing and resuming them, and by
    replacing the content of a file. *)
Inductive reachable : World -> Prop :=
| reach_empty : reachable emptyWorld
| reach_create insertProject w :
    reachable w -> reachable (createProject env insertProject w).2
| reach_start pid w :
    reachable w -> reachable (startProject env agents pid w).2
| reach_pause pid w :
    reachable w -> reachable (pauseProject env pid w).2
| reach_resume pid w :
    reachable w -> reachable (resumeProject env agents pid w).2
| reach_updateFile id newContent w :
    reachable w -> reachable (updateProjectFile id newContent w).2.

End Reachable.

(** * Concrete runs *)

Module Scenario.

Definition uuid (n : nat) : string := "id-" ++ JsString.ofNat n.

Definition date (n : nat) : string := "t" ++ JsString.ofNat n.

(** The generation backend is down: every call fails. *)
Definition backendDown : Env :=
  {| randomUUID := uuid; dateNow := date;
     aiGenerate := fun _ _ _ => Threw "quota exceeded" |}.

(** The generation backend answers by a script: the call number [n] gets
    the entry [n] of [answers], and fails once the script is over. *)
Definition scripted (answers : list (Res (option string))) : Env :=
  {| randomUUID := uuid; dateNow := date;
     aiGenerate := fun n _ _ => default (Threw "quota exceeded") (answers !! n) |}.

(** Stand-ins for the text heuristics in the concrete runs below: no
    structure is read off the specification, and the generated text is
    stored as one file. *)
Definition plain : Heuristics :=
  {| parseRequirements := fun _ => JObj [];
     frontendParseCodeIntoFiles := fun text _ =>
       Ok [ {| path := "/src/App.tsx"; content := text; language := Some "typescript" |} ];
     frontendExtractArchitectureInfo := fun _ => JObj [];
     backendParseCodeIntoFiles := fun text _ =>
       Ok [ {| path := "/server/index.ts"; content := text; language := Some "typescript" |} ];
     backendExtractArchitectureInfo := fun _ => JObj [];
     backendExtractEndpoints := fun _ => JArr [];
     parseFloat := fun _ => JNum 7 |}.

(** Modelled from the spec: [server/agents/DeploymentAgent.ts] is not among
    the sources.  The specification describes the packaging stage only as one
    of the stages, which returns a result or a failure; in the concrete runs
    it returns success with an output and no file. *)
Definition deploymentExecute : Agent :=
  fun _ _ _ =>
    ret {| success := true; output := Some (JObj [ ("packaged", JBool true) ]);
           error := None; files := None |}.

Definition agentsOf (env : Env) : gmap string Agent :=
  initializeAgents env plain deploymentExecute.

(** The project that the setup form sends with its default choices *)
Definition landingPage : InsertProject :=
  {| ip_name := "shop";
     ip_description := "A landing page";
     ip_config :=
       JObj [ ("projectName", JStr "shop");
              ("description", JStr "A landing page");
              ("stack", JStr "react");
              ("database", JStr "none");
              ("features", JArr []) ] |}.

(** A project is created and the generation backend is down. *)
Definition created : World := (createProject backendDown landingPage emptyWorld).2.

Definition pausedThenResumed : Res unit * World :=
  resumeProject backendDown (agentsOf backendDown) "id-0"
    (pauseProject backendDown "id-0" created).2.

Definition started : Res unit * World :=
  startProject backendDown (agentsOf backendDown) "id-0" created.

(** A project is created and the generation backend answers: a
    specification without any backend keyword, a component, and a report
    without issues. *)
Definition specification : string := "Static pages only".

Definition component : string := "export default function App() {}".

Definition cleanRun : Env :=
  scripted [ Ok (Some specification); Ok (Some component); Ok (Some "Looks fine.") ].

Definition completedRun : Res unit * World :=
  startProject cleanRun (agentsOf cleanRun) "id-0"
    (createProject cleanRun landingPage emptyWorld).2.

(** The report names a critical issue and the fix comes as one code block. *)
Definition report : string :=
  text [ "Critical issues:"; "- Unescaped user input in the page title" ].

Definition repair : string :=
  text [ "```tsx App.tsx"; "export default function App() { return null }"; "```" ].

Definition fixedRun : Env :=
  scripted [ Ok (Some specification); Ok (Some component); Ok (Some report);
             Ok (Some repair) ].

Definition repairedRun : Res unit * World :=
  startProject fixedRun (agentsOf fixedRun) "id-0"
    (createProject fixedRun landingPage emptyWorld).2.

(** The generation backend answers the Requirement stage and fails from
    then on. *)
Definition frontendFails : Env := scripted [ Ok (Some specification) ].

Definition failedRun : Res unit * World :=
  startProject frontendFails (agentsOf frontendFails) "id-0"
    (createProject frontendFails landingPage emptyWorld).2.

(** The outputs that the Validator finds when the Frontend stage alone has
    left one *)
Definition frontendOutput : JsVal := JObj [ ("codeGenerated", JStr component) ].

Definition frontendAlone : gmap string JsVal := {[ "Frontend" := frontendOutput ]}.

(** The outputs that the Backend stage finds after the Requirement stage *)
Definition requirementOutput : JsVal := JObj [ ("specification", JStr specification) ].

Definition requirementAlone : gmap string JsVal :=
  {[ "Requirement" := requirementOutput ]}.

(** The outputs that the Validator finds when the Backend stage skipped *)
Definition backendSkipped : gmap string JsVal :=
  <["Backend" := frontendOnly]> (<["Frontend" := frontendOutput]> requirementAlone).

(** The Validator alone, on the outputs [outputs], from an empty log *)
Definition validate (env : Env) (outputs : gmap string JsVal) : Res AgentResult * IO :=
  Validator.validatorExecute env plain "Validator" "id-0" (ip_config landingPage)
    outputs emptyIO.

(** The generation backend answers the validation request with a report
    without issues. *)
Definition approving : Env := scripted [ Ok (Some "Looks fine.") ].

(** The generation backend answers the validation request with the report
    that names a critical issue, and fails on the fix request. *)
Definition reportOnly : Env := scripted [ Ok (Some report) ].

(** The generation backend answers both the validation request and the fix
    request. *)
Definition reportAndRepair : Env := scripted [ Ok (Some report); Ok (Some repair) ].

(** A registry whose Requirement agent throws instead of returning a
    failure *)
Definition throwing : gmap string Agent :=
  <["Requirement" := fun _ _ _ => throw "socket hang up"]> (agentsOf backendDown).

Definition thrownRun : Res unit * World :=
  startProject backendDown throwing "id-0" created.

End Scenario.

Import Scenario.


(** * Facts about arrays *)

Lemma includes_elem_of xs x : JsArray.includes xs x = true <-> x ∈ xs.
Proof.
  unfold JsArray.includes. rewrite existsb_exists. split.
  - intros (y & Hy & Heq). apply String.eqb_eq in Heq. subst.
    by apply list_elem_of_In.
  - intros Hin. exists x. split; [by apply list_elem_of_In|].
    apply String.eqb_refl.
Qed.

Lemma includes_not_elem_of xs x : JsArray.includes xs x = false <-> x ∉ xs.
Proof.
  rewrite <- includes_elem_of. destruct (JsArray.includes xs x); naive_solver.
Qed.

Lemma includes_app xs ys x :
  JsArray.includes (xs ++ ys) x = JsArray.includes xs x || JsArray.includes ys x.
Proof. unfold JsArray.includes. apply existsb_app. Qed.

(** * Reasoning about computations *)

Section HoareRules.

Context {S : Type}.

Lemma hoare_ret {A} (P : S -> Prop) (a : A) (Q : Res A -> S -> Prop) :
  (forall s, P s -> Q (Ok a) s) -> hoare P (ret a) Q.
Proof. intros H s Hs. by apply H. Qed.

Lemma hoare_throw {A} (P : S -> Prop) (e : string) (Q : Res A -> S -> Prop) :
  (forall s, P s -> Q (Threw e) s) -> hoare P (throw e) Q.
Proof. intros H s Hs. by apply H. Qed.

Lemma hoare_bind {A B} (P : S -> Prop) (R : A -> S -> Prop)
    (m : ST S A) (k : A -> ST S B) (Q : Res B -> S -> Prop) :
  hoare P m (fun r s => match r with Ok a => R a s | Threw e => Q (Threw e) s end) ->
  (forall a, hoare (R a) (k a) Q) ->
  hoare P (bind m k) Q.
Proof.
  intros Hm Hk s Hs. specialize (Hm s Hs). unfold bind.
  destruct (m s) as [[a|e] s']; simpl in *; [by apply Hk | done].
Qed.

Lemma hoare_tryCatch {A} (P : S -> Prop) (R : string -> S -> Prop)
    (m : ST S A) (handler : string -> ST S A) (Q : Res A -> S -> Prop) :
  hoare P m (fun r s => match r with Ok a => Q (Ok a) s | Threw e => R e s end) ->
  (forall e, hoare (R e) (handler e) Q) ->
  hoare P (tryCatch m handler) Q.
Proof.
  intros Hm Hh s Hs. specialize (Hm s Hs). unfold tryCatch.
  destruct (m s) as [[a|e] s']; simpl in *; [done | by apply Hh].
Qed.

Lemma hoare_consequence {A} (P P' : S -> Prop) (m : ST S A) (Q Q' : Res A -> S -> Prop) :
  hoare P' m Q' ->
  (forall s, P s -> P' s) ->
  (forall r s, Q' r s -> Q r s) ->
  hoare P m Q.
Proof. intros Hm HP HQ s Hs. apply HQ, Hm, HP, Hs. Qed.

Lemma hoare_pre {A} (P P' : S -> Prop) (m : ST S A) (Q : Res A -> S -> Prop) :
  hoare P' m Q -> (forall s, P s -> P' s) -> hoare P m Q.
Proof. intros Hm HP. by eapply hoare_consequence. Qed.

Lemma hoare_post {A} (P : S -> Prop) (m : ST S A) (Q Q' : Res A -> S -> Prop) :
  hoare P m Q' -> (forall r s, Q' r s -> Q r s) -> hoare P m Q.
Proof. intros Hm HQ. by eapply hoare_consequence. Qed.

(** A fact that does not speak of the state can be taken out. *)
Lemma hoare_assume {A} (F : Prop) (P : S -> Prop) (m : ST S A) (Q : Res A -> S -> Prop) :
  (F -> hoare P m Q) -> hoare (fun s => F /\ P s) m Q.
Proof. intros H s [HF Hs]. by apply H. Qed.

End HoareRules.

(** * Invariants of the execution state *)

Lemma stateOk_initial pid j : stateOk pid j initialState.
Proof.
  split; [|split]; simpl.
  - intros i n H. by rewrite lookup_nil in H.
  - intros n H. by apply not_elem_of_nil in H.
  - intros n. rewrite lookup_empty. split.
    + intros H. by apply not_elem_of_nil in H.
    + intros [x Hx]. done.
Qed.

Lemma stateOk_mono pid j j' s : stateOk pid j s -> stateOk pid (j ++ j') s.
Proof.
  intros (H1 & H2 & H3). split; [done|split; [|done]].
  intros n Hn. destruct (H2 n Hn) as (r & Hr & Hs & Ho).
  exists r. split; [|done]. apply elem_of_app. by left.
Qed.

Lemma stateOk_ext pid j s s' :
  completedAgents s' = completedAgents s ->
  agentOutputs s' = agentOutputs s ->
  stateOk pid j s -> stateOk pid j s'.
Proof. unfold stateOk. intros -> ->. done. Qed.

Lemma stateOk_setCurrentAgent pid j a s :
  stateOk pid j s -> stateOk pid j (setCurrentAgent a s).
Proof. by apply stateOk_ext. Qed.

Lemma stateOk_pushError pid j e s :
  stateOk pid j s -> stateOk pid j (pushError e s).
Proof. by apply stateOk_ext. Qed.

(** The step that the loop takes on success keeps the state well formed. *)
Lemma stateOk_complete pid j s c r :
  stateOk pid j s ->
  c ∈ agentConfigs ->
  name c ∉ completedAgents s ->
  (forall d, d ∈ dependencies c -> d ∈ completedAgents s) ->
  J_execute pid (name c) (Ok r) ∈ j ->
  success r = true ->
  stateOk pid j (complete (name c) (default JUndefined (output r)) s).
Proof.
  intros (H1 & H2 & H3) Hc Hnew Hdeps Hj Hs. split; [|split]; simpl.
  - intros i n Hi. apply lookup_app_Some in Hi as [Hi | [Hlen Hi]].
    + destruct (H1 i n Hi) as (c' & Hc' & Hn & Hd).
      exists c'. split; [done|split; [done|]]. intros d Hin.
      rewrite take_app_le; [by apply Hd|].
      apply lookup_lt_Some in Hi. lia.
    + apply list_lookup_singleton_Some in Hi as [Hi <-].
      exists c. split; [done|split; [done|]]. intros d Hin.
      replace i with (List.length (completedAgents s)) by lia.
      rewrite take_app_length. by apply Hdeps.
  - intros n Hn. apply elem_of_app in Hn as [Hn | Hn].
    + destruct (H2 n Hn) as (r' & Hr' & Hs' & Ho').
      exists r'. split; [done|split; [done|]].
      rewrite lookup_insert_ne; [done|]. intros <-. done.
    + apply list_elem_of_singleton in Hn as ->.
      exists r. split; [done|split; [done|]]. by rewrite lookup_insert_eq.
  - intros n. destruct (decide (name c = n)) as [<- | Hne].
    + rewrite lookup_insert_eq. split; [by eauto|].
      intros _. apply elem_of_app. right. by apply list_elem_of_singleton.
    + rewrite lookup_insert_ne by done.
      rewrite <- H3, elem_of_app, list_elem_of_singleton.
      split; [intros [Hn | Hn]; [done | congruence] | by left].
Qed.

Lemma Inv_empty : Inv emptyWorld.
Proof.
  split; [|split]; simpl.
  - apply map_Forall_empty.
  - intros pid p H. by rewrite lookup_empty in H.
  - intros pid s H. by apply not_elem_of_nil in H.
Qed.

(** The invariant does not read the agents' part of the world. *)
Lemma Inv_setIO w i : Inv w -> Inv (setIO i w).
Proof. done. Qed.

Lemma projectOk_mono j j' pid p : projectOk j pid p -> projectOk (j ++ j') pid p.
Proof. intros [H1 H2]. split; [by apply stateOk_mono | done]. Qed.

(** Recording an execution keeps the invariant. *)
Lemma Inv_record_execute w pid n o : Inv w -> Inv (record (J_execute pid n o) w).
Proof.
  intros (Hf & Hp & Hs). split; [done|split]; simpl.
  - intros pid' p H. by apply projectOk_mono, Hp.
  - intros pid' s H. apply elem_of_app in H as [H | H].
    + by apply stateOk_mono, Hs.
    + apply list_elem_of_singleton in H. done.
Qed.

(** Writing a well-formed state keeps the invariant, as long as a project
    that stands completed is given a state with all agents completed. *)
Lemma Inv_write_state w pid p s now i :
  Inv w ->
  projects w !! pid = Some p ->
  stateOk pid (journal w) s ->
  (status p = S_completed -> allCompleted s) ->
  Inv {| projects := <[pid := withState s now p]> (projects w);
         projectFiles := projectFiles w; io := i;
         journal := journal w ++ [J_state pid s] |}.
Proof.
  intros (Hf & Hp & Hs) Hlook Hok Hall. split; [done|split]; simpl.
  - intros pid' p' H. destruct (decide (pid = pid')) as [<- | Hne].
    + rewrite lookup_insert_eq in H. injection H as <-.
      split; simpl; [by apply stateOk_mono | done].
    + rewrite lookup_insert_ne in H by done. by apply projectOk_mono, Hp.
  - intros pid' s' H. apply elem_of_app in H as [H | H].
    + by apply stateOk_mono, Hs.
    + apply list_elem_of_singleton in H. injection H as -> ->.
      by apply stateOk_mono.
Qed.

(** Writing a status keeps the invariant, as long as [completed] is only
    given to a project whose state has all agents completed. *)
Lemma Inv_write_status w pid p st now i :
  Inv w ->
  projects w !! pid = Some p ->
  (st = S_completed -> allCompleted (default initialState (state p))) ->
  Inv {| projects := <[pid := withStatus st now p]> (projects w);
         projectFiles := projectFiles w; io := i;
         journal := journal w ++ [J_status pid st] |}.
Proof.
  intros (Hf & Hp & Hs) Hlook Hall. split; [done|split]; simpl.
  - intros pid' p' H. destruct (decide (pid = pid')) as [<- | Hne].
    + rewrite lookup_insert_eq in H. injection H as <-.
      split; simpl; [|done]. apply stateOk_mono. by apply (Hp pid p).
    + rewrite lookup_insert_ne in H by done. by apply projectOk_mono, Hp.
  - intros pid' s' H. apply elem_of_app in H as [H | H].
    + by apply stateOk_mono, Hs.
    + apply list_elem_of_singleton in H. done.
Qed.

(** Storing a file whose size is the length of its content keeps the
    invariant. *)
Lemma Inv_write_file w id f i :
  Inv w -> fileOk f ->
  Inv {| projects := projects w; projectFiles := <[id := f]> (projectFiles w);
         io := i; journal := journal w |}.
Proof.
  intros (Hf & Hp & Hs) Hok. split; [|done]. simpl.
  by apply map_Forall_insert_2.
Qed.

(** * What the storage operations do *)

Section StorageFacts.

Variable env : Env.

Lemma updateProjectState_run pid s w p :
  projects w !! pid = Some p ->
  exists now i,
    updateProjectState env pid s w =
    (Ok tt, {| projects := <[pid := withState s now p]> (projects w);
               projectFiles := projectFiles w; io := i;
               journal := journal w ++ [J_state pid s] |}).
Proof.
  intros H. unfold updateProjectState, bind, getProject. rewrite H.
  unfold liftIO, newDate. simpl. by eexists _, _.
Qed.

Lemma updateProjectState_missing pid s w :
  projects w !! pid = None -> updateProjectState env pid s w = (Ok tt, w).
Proof. intros H. unfold updateProjectState, bind, getProject. by rewrite H. Qed.

Lemma updateProjectStatus_run pid st w p :
  projects w !! pid = Some p ->
  exists now i,
    updateProjectStatus env pid st w =
    (Ok tt, {| projects := <[pid := withStatus st now p]> (projects w);
               projectFiles := projectFiles w; io := i;
               journal := journal w ++ [J_status pid st] |}).
Proof.
  intros H. unfold updateProjectStatus, bind, getProject. rewrite H.
  unfold liftIO, newDate. simpl. by eexists _, _.
Qed.

Lemma updateProjectStatus_missing pid st w :
  projects w !! pid = None -> updateProjectStatus env pid st w = (Ok tt, w).
Proof. intros H. unfold updateProjectStatus, bind, getProject. by rewrite H. Qed.

Lemma addProjectFile_run insertFile w :
  exists id f i,
    addProjectFile env insertFile w =
    (Ok f, {| projects := projects w;
              projectFiles := <[id := f]> (projectFiles w);
              io := i; journal := journal w |})
    /\ f_content f = if_content insertFile /\ f_size f = if_size insertFile.
Proof.
  unfold addProjectFile, bind, liftIO, newUUID, newDate. simpl.
  by eexists _, _, _.
Qed.

(** A computation of the agents' part changes neither the projects, nor the
    files, nor the journal. *)
Lemma liftIO_run {A} (m : ST IO A) w :
  exists r i, liftIO m w = (r, setIO i w).
Proof. unfold liftIO. destruct (m (io w)) as [r i]. by eexists _, _. Qed.

Lemma hoare_liftIO {A} (P : World -> Prop) (m : ST IO A) :
  (forall w i, P w -> P (setIO i w)) ->
  hoare P (liftIO m) (fun _ w => P w).
Proof.
  intros HP w Hw. destruct (liftIO_run m w) as (r & i & ->). by apply HP.
Qed.

End StorageFacts.

Lemma hoare_bind_returns {S A B} (P : S -> Prop) (R : A -> S -> Prop)
    (m : ST S A) (k : A -> ST S B) (Q : Res B -> S -> Prop) :
  hoare P m (returns R) ->
  (forall a, hoare (R a) (k a) Q) ->
  hoare P (bind m k) Q.
Proof.
  intros Hm Hk. apply (hoare_bind P R); [|done].
  eapply hoare_post; [exact Hm|]. by intros r s (a & -> & H).
Qed.

(** * The run loop keeps the invariant *)

Section PipelineFacts.

Variable env : Env.
Variable agents : gmap string Agent.

Lemma hoare_emitW (P : World -> Prop) e :
  (forall w i, P w -> P (setIO i w)) ->
  hoare P (emitW e) (returns (fun _ w => P w)).
Proof.
  intros HP w Hw. unfold emitW, liftIO, emit. simpl.
  exists tt. split; [done|]. by apply HP.
Qed.

Lemma hoare_newDate (P : World -> Prop) :
  (forall w i, P w -> P (setIO i w)) ->
  hoare P (liftIO (newDate env)) (returns (fun _ w => P w)).
Proof.
  intros HP w Hw. unfold liftIO, newDate. simpl.
  eexists. split; [done|]. by apply HP.
Qed.

Lemma hoare_execute pid st s agent n cfg outs :
  hoare (between pid st s) (execute agent pid n cfg outs)
    (returns (fun o w => between pid st s w /\ J_execute pid n o ∈ journal w)).
Proof.
  intros w ((HI & Hst & Hok) & Hs). unfold execute.
  destruct (agent pid cfg outs (io w)) as [o i]. simpl.
  exists o. split; [done|]. split; [split; [split; [|split]|]|].
  - by apply Inv_record_execute.
  - done.
  - by apply stateOk_mono.
  - done.
  - apply elem_of_app. right. by apply list_elem_of_singleton.
Qed.

Lemma hoare_updateProjectState pid st s :
  st <> S_completed ->
  hoare (during pid st s) (updateProjectState env pid s)
    (returns (fun _ w => between pid st s w)).
Proof.
  intros Hst w (HI & (p & Hp & Hsp) & Hok).
  destruct (updateProjectState_run env pid s w p Hp) as (now & i & ->). simpl.
  exists tt. split; [done|]. split; [split; [|split]|].
  - apply Inv_write_state; [done..|]. intros Hc. congruence.
  - exists (withState s now p). simpl. by rewrite lookup_insert_eq.
  - simpl. by apply stateOk_mono.
  - exists (withState s now p). simpl. by rewrite lookup_insert_eq.
Qed.

Lemma hoare_updateProjectStatus pid st st' s :
  (st' = S_completed -> allCompleted s) ->
  hoare (between pid st s) (updateProjectStatus env pid st')
    (returns (fun _ w => between pid st' s w)).
Proof.
  intros Hall w ((HI & (p & Hp & Hsp) & Hok) & (p' & Hp' & Hs')).
  rewrite Hp in Hp'. injection Hp' as <-.
  destruct (updateProjectStatus_run env pid st' w p Hp) as (now & i & ->). simpl.
  exists tt. split; [done|]. split; [split; [|split]|].
  - apply Inv_write_status; [done..|]. rewrite Hs'. done.
  - exists (withStatus st' now p). simpl. by rewrite lookup_insert_eq.
  - simpl. by apply stateOk_mono.
  - exists (withStatus st' now p). simpl. by rewrite lookup_insert_eq.
Qed.

Lemma hoare_saveFiles pid st s fs :
  hoare (during pid st s) (saveFiles env pid fs)
    (returns (fun _ w => during pid st s w)).
Proof.
  induction fs as [|file rest IH].
  - intros w Hw. by exists tt.
  - simpl. eapply hoare_bind_returns; [|intros ?; exact IH].
    intros w (HI & Hst & Hok).
    destruct (addProjectFile_run env
                {| if_projectId := pid; if_path := path file;
                   if_content := content file;
                   if_size := Z.of_nat (String.length (content file));
                   if_language := language file |} w)
      as (id & f & i & Hrun & Hc & Hsz).
    rewrite Hrun. simpl in *. exists f. split; [done|]. split; [|done].
    apply Inv_write_file; [done|]. unfold fileOk. by rewrite Hsz, Hc.
Qed.

(** The [catch] block stores a well-formed state and throws. *)
Lemma hoare_onAgentError pid st s n message :
  st <> S_completed ->
  hoare (during pid st s) (onAgentError env pid n s message)
    (throws (fun w => Inv w /\ hasStatus pid st w)).
Proof.
  intros Hst. unfold onAgentError.
  eapply hoare_bind_returns; [by apply hoare_newDate|]. intros now.
  eapply hoare_bind_returns.
  { eapply hoare_pre; [by apply hoare_updateProjectState|].
    intros w (HI & Hs & Hok). split; [done|split; [done|]].
    by apply stateOk_pushError. }
  intros ?. eapply hoare_bind_returns; [by apply hoare_emitW|]. intros ?.
  apply hoare_throw. intros w ((HI & Hs & _) & _). by exists message.
Qed.

Lemma throws_loopPost pid st configs s r w :
  throws (fun w => Inv w /\ hasStatus pid st w) r w -> loopPost pid st configs s r w.
Proof. by intros (e & -> & H). Qed.

Lemma hoare_pipelineLoop pid st project configs :
  st <> S_completed ->
  (forall c, c ∈ configs -> c ∈ agentConfigs) ->
  forall s,
    hoare (between pid st s) (pipelineLoop env agents pid project configs s)
      (loopPost pid st configs s).
Proof.
  intros Hst. induction configs as [|c rest IH]; intros Hsub s.
  { apply hoare_ret. intros w Hw. split; [done|split; [done|]].
    intros c Hc. by apply not_elem_of_nil in Hc. }
  assert (Hrest : forall c', c' ∈ rest -> c' ∈ agentConfigs).
  { intros c' Hc'. apply Hsub. by right. }
  assert (Hc : c ∈ agentConfigs) by (apply Hsub; left).
  simpl. destruct (JsArray.includes (completedAgents s) (name c)) eqn:Hin.
  { eapply hoare_post; [by apply IH|]. intros [s'|e] w; [|done].
    intros (Hb & Hmono & Hall). split; [done|split; [done|]].
    intros c' Hc'. apply elem_of_cons in Hc' as [-> | Hc'].
    - apply Hmono. by apply includes_elem_of.
    - by apply Hall. }
  apply includes_not_elem_of in Hin.
  destruct (dependenciesMet c (completedAgents s)) eqn:Hdeps; simpl.
  2: { apply hoare_throw. by intros w ((HI & Hs & _) & _). }
  assert (Hmet : forall d, d ∈ dependencies c -> d ∈ completedAgents s).
  { intros d Hd. unfold dependenciesMet in Hdeps. rewrite forallb_forall in Hdeps.
    apply includes_elem_of, Hdeps. by apply list_elem_of_In. }
  unfold runAgent. eapply hoare_bind_returns.
  { eapply hoare_pre; [by apply hoare_updateProjectState|].
    intros w ((HI & Hs & Hok) & _). split; [done|split; [done|]].
    by apply stateOk_setCurrentAgent. }
  intros ?. eapply hoare_bind_returns; [by apply hoare_emitW|]. intros ?.
  destruct (agents !! name c) as [agent|].
  2: { apply hoare_throw. by intros w ((HI & Hs & _) & _). }
  eapply hoare_bind_returns; [apply hoare_execute|]. intros [result|message].
  2: { eapply hoare_post; [|apply throws_loopPost].
       eapply hoare_pre; [by apply hoare_onAgentError|]. by intros w [[H _] _]. }
  destruct (success result) eqn:Hsuccess.
  2: { eapply hoare_bind_returns; [by apply hoare_newDate|]. intros now.
       eapply hoare_post; [|apply throws_loopPost].
       eapply hoare_pre; [by apply hoare_onAgentError|].
       intros w [[(HI & Hs & Hok) _] _]. split; [done|split; [done|]].
       by apply stateOk_pushError. }
  set (s2 := complete (name c) (default JUndefined (output result))
               (setCurrentAgent (Some (name c)) s)).
  eapply (hoare_bind_returns _ (fun _ w => during pid st s2 w)).
  { eapply hoare_pre with (P' := during pid st s2).
    - destruct (files result) as [fs|]; [apply hoare_saveFiles|].
      apply hoare_ret. intros w Hw. by exists tt.
    - intros w [[(HI & Hs & Hok) _] Hj]. split; [done|split; [done|]].
      by apply stateOk_complete. }
  intros ?. eapply hoare_bind_returns; [by apply hoare_emitW|]. intros ?.
  eapply hoare_bind_returns.
  { eapply hoare_pre; [by apply hoare_updateProjectState|].
    intros w (HI & Hs & Hok). split; [done|split; [done|]].
    by apply stateOk_setCurrentAgent. }
  intros ?. eapply hoare_post; [by apply IH|]. intros [s'|e] w; [|done].
  intros (Hb & Hmono & Hall). split; [done|split].
  - intros n Hn. apply Hmono. simpl. apply elem_of_app. by left.
  - intros c' Hc'. apply elem_of_cons in Hc' as [-> | Hc']; [|by apply Hall].
    apply Hmono. simpl. apply elem_of_app. right. by apply list_elem_of_singleton.
Qed.

End PipelineFacts.

(** * The operations keep the invariant *)

Section OperationFacts.

Variable env : Env.
Variable agents : gmap string Agent.

Lemma between_lookup w pid p :
  Inv w -> projects w !! pid = Some p ->
  between pid (status p) (default initialState (state p)) w.
Proof.
  intros HI Hp. destruct HI as (Hf & Hps & Hj).
  destruct (Hps pid p Hp) as [Hok _].
  split; [split; [done|split; [|done]]|]; by exists p.
Qed.

Lemma hoare_getProject (P : World -> Prop) pid :
  hoare P (getProject pid) (returns (fun found w => P w /\ found = projects w !! pid)).
Proof. intros w Hw. by exists (projects w !! pid). Qed.

Lemma hoare_deref pid st s project :
  hoare (between pid st s) (deref pid project)
    (returns (fun p w => between pid st s w /\ default initialState (state p) = s)).
Proof.
  intros w Hw. unfold deref. simpl. eexists. split; [done|]. split; [done|].
  destruct Hw as [_ (p & -> & Hs)]. done.
Qed.

Lemma hoare_executeAgentPipeline pid st project :
  st <> S_completed ->
  hoare (between pid st (default initialState (state project)))
    (executeAgentPipeline env agents pid project) (pipelinePost pid st).
Proof.
  intros Hst. unfold executeAgentPipeline.
  eapply hoare_bind.
  { apply hoare_pipelineLoop; [done|]. by intros c Hc. }
  simpl. intros s'.
  eapply hoare_pre with (P' := fun w => allCompleted s' /\ between pid st s' w).
  2: { intros w (Hb & _ & Hall). split; [|done]. intros c Hc. by apply Hall. }
  apply hoare_assume. intros Hall.
  eapply hoare_bind_returns; [by apply (hoare_updateProjectStatus env pid st S_completed s')|].
  intros ?. eapply hoare_post; [by apply hoare_emitW|].
  intros r w (u & -> & ((HI & Hs & _) & _)). by split.
Qed.

Lemma hoare_setStatus pid st' :
  st' <> S_completed ->
  hoare (fun w => Inv w /\ is_Some (projects w !! pid))
    (updateProjectStatus env pid st')
    (returns (fun _ w => Inv w /\ hasStatus pid st' w)).
Proof.
  intros Hst w [HI [p Hp]].
  destruct (updateProjectStatus_run env pid st' w p Hp) as (now & i & ->). simpl.
  exists tt. split; [done|]. split.
  - apply Inv_write_status; [done..|]. intros Hc. congruence.
  - exists (withStatus st' now p). simpl. by rewrite lookup_insert_eq.
Qed.

Lemma hoare_Inv_updateProjectStatus pid st' :
  st' <> S_completed ->
  hoare Inv (updateProjectStatus env pid st') (returns (fun _ w => Inv w)).
Proof.
  intros Hst w HI. destruct (projects w !! pid) as [p|] eqn:Hp.
  - destruct (hoare_setStatus pid st' Hst w) as (u & Hr & HI' & _); [by eauto|].
    by exists u.
  - rewrite updateProjectStatus_missing by done. by exists tt.
Qed.

(** [startProject] on a stored project: it returns, the invariant holds,
    and the status is [completed] or [error]. *)
Lemma hoare_startProject pid p :
  hoare (fun w => Inv w /\ projects w !! pid = Some p)
    (startProject env agents pid)
    (fun r w => r = Ok tt /\ Inv w /\
                (hasStatus pid S_completed w \/ hasStatus pid S_error w)).
Proof.
  unfold startProject.
  eapply hoare_tryCatch with (R := fun _ w => Inv w /\ hasStatus pid S_running w).
  - eapply hoare_bind_returns; [apply hoare_getProject|]. intros [project|].
    2: { intros w [[_ Hp] Hf]. congruence. }
    eapply hoare_bind_returns.
    { eapply hoare_pre.
      - by apply (hoare_updateProjectStatus env pid (status p) S_running
                    (default initialState (state p))).
      - intros w [[HI Hp] _]. by apply between_lookup. }
    intros ?. eapply hoare_bind_returns.
    { eapply hoare_pre; [by apply (hoare_updateProjectState env pid S_running)|].
      intros w [(HI & Hs & _) _]. split; [done|split; [done|]].
      apply stateOk_initial. }
    intros ?. eapply hoare_bind_returns; [by apply hoare_emitW|].
    intros ?. eapply hoare_bind_returns; [apply hoare_deref|].
    intros project'. eapply hoare_post.
    + eapply hoare_pre; [by apply (hoare_executeAgentPipeline pid S_running)|].
      intros w [Hb Heq]. by rewrite Heq.
    + intros [[]|e] w [HI Hs]; [|done]. split; [done|]. split; [done|]. by left.
  - intros e. eapply hoare_bind_returns.
    { eapply hoare_pre; [by apply (hoare_setStatus pid S_error)|].
      intros w [HI (p' & Hp' & _)]. split; [done|]. by eauto. }
    intros ?. eapply hoare_post.
    + apply hoare_emitW with (P := fun w => Inv w /\ hasStatus pid S_error w). done.
    + intros r w (u & -> & HI & Hs). destruct u. split; [done|]. split; [done|].
      by right.
Qed.

Lemma startProject_missing pid w :
  projects w !! pid = None ->
  exists i, startProject env agents pid w = (Ok tt, setIO i w).
Proof.
  intros Hp. unfold startProject, tryCatch, bind, getProject, throw. rewrite Hp.
  rewrite updateProjectStatus_missing by done.
  unfold emitW, liftIO, emit. simpl. by eexists.
Qed.

(** [pauseProject] on a stored project *)
Lemma hoare_pauseProject pid p :
  hoare (fun w => Inv w /\ projects w !! pid = Some p)
    (pauseProject env pid)
    (fun r w => r = Ok tt /\ Inv w /\ hasStatus pid S_paused w).
Proof.
  unfold pauseProject. eapply hoare_bind_returns.
  { eapply hoare_pre; [by apply (hoare_setStatus pid S_paused)|].
    intros w [HI Hp]. split; [done|]. by eauto. }
  intros ?. eapply hoare_post.
  - apply hoare_emitW with (P := fun w => Inv w /\ hasStatus pid S_paused w). done.
  - intros r w (u & -> & HI & Hs). by destruct u.
Qed.

Lemma pauseProject_missing pid w :
  projects w !! pid = None ->
  exists i, pauseProject env pid w = (Ok tt, setIO i w).
Proof.
  intros Hp. unfold pauseProject, bind.
  rewrite updateProjectStatus_missing by done.
  unfold emitW, liftIO, emit. simpl. by eexists.
Qed.

(** [resumeProject] on a stored project: the invariant holds; when the call
    returns the status is [completed], and when it throws the status is
    [running]. *)
Lemma hoare_resumeProject pid p :
  hoare (fun w => Inv w /\ projects w !! pid = Some p)
    (resumeProject env agents pid) (pipelinePost pid S_running).
Proof.
  unfold resumeProject.
  eapply hoare_bind_returns; [apply hoare_getProject|]. intros [project|].
  2: { intros w [[_ Hp] Hf]. congruence. }
  eapply hoare_bind_returns.
  { eapply hoare_pre.
    - by apply (hoare_updateProjectStatus env pid (status p) S_running
                  (default initialState (state p))).
    - intros w [[HI Hp] _]. by apply between_lookup. }
  intros ?. eapply hoare_bind_returns; [by apply hoare_emitW|].
  intros ?. eapply hoare_bind_returns; [apply hoare_deref|].
  intros project'.
  eapply hoare_pre; [by apply (hoare_executeAgentPipeline pid S_running)|].
  intros w [Hb Heq]. by rewrite Heq.
Qed.

Lemma resumeProject_missing pid w :
  projects w !! pid = None ->
  resumeProject env agents pid w = (Threw "Project not found", w).
Proof.
  intros Hp. unfold resumeProject, bind, getProject. by rewrite Hp.
Qed.

Lemma createProject_run insertProject w :
  exists id now i,
    createProject env insertProject w =
    (Ok {| p_id := id; p_name := ip_name insertProject;
           p_description := ip_description insertProject;
           config := ip_config insertProject; status := S_pending;
           state := None; createdAt := now; updatedAt := now |},
     {| projects :=
          <[id := {| p_id := id; p_name := ip_name insertProject;
                     p_description := ip_description insertProject;
                     config := ip_config insertProject; status := S_pending;
                     state := None; createdAt := now; updatedAt := now |}]>
            (projects w);
        projectFiles := projectFiles w; io := i; journal := journal w |}).
Proof.
  unfold createProject, bind, liftIO, newUUID, newDate. simpl. by eexists _, _, _.
Qed.

Lemma Inv_createProject insertProject w :
  Inv w -> Inv (createProject env insertProject w).2.
Proof.
  intros (Hf & Hp & Hs).
  destruct (createProject_run insertProject w) as (id & now & i & ->). simpl.
  split; [done|split; [|done]]. simpl. intros pid p H.
  destruct (decide (id = pid)) as [<- | Hne].
  - rewrite lookup_insert_eq in H. injection H as <-. split; simpl; [|done].
    apply stateOk_initial.
  - rewrite lookup_insert_ne in H by done. by apply Hp.
Qed.

Lemma Inv_updateProjectFile id newContent w :
  Inv w -> Inv (updateProjectFile id newContent w).2.
Proof.
  intros HI. unfold updateProjectFile. destruct (projectFiles w !! id) as [f|]; [|done].
  simpl. by apply (Inv_write_file w id _ (io w)).
Qed.

Lemma Inv_startProject pid w : Inv w -> Inv (startProject env agents pid w).2.
Proof.
  intros HI. destruct (projects w !! pid) as [p|] eqn:Hp.
  - by apply (hoare_startProject pid p w).
  - by destruct (startProject_missing pid w Hp) as (i & ->).
Qed.

Lemma Inv_pauseProject pid w : Inv w -> Inv (pauseProject env pid w).2.
Proof.
  intros HI. destruct (projects w !! pid) as [p|] eqn:Hp.
  - by apply (hoare_pauseProject pid p w).
  - by destruct (pauseProject_missing pid w Hp) as (i & ->).
Qed.

Lemma Inv_resumeProject pid w : Inv w -> Inv (resumeProject env agents pid w).2.
Proof.
  intros HI. destruct (projects w !! pid) as [p|] eqn:Hp.
  - by apply (hoare_resumeProject pid p w).
  - by rewrite resumeProject_missing.
Qed.

Lemma reachable_Inv w : reachable env agents w -> Inv w.
Proof.
  induction 1.
  - apply Inv_empty.
  - by apply Inv_createProject.
  - by apply Inv_startProject.
  - by apply Inv_pauseProject.
  - by apply Inv_resumeProject.
  - by apply Inv_updateProjectFile.
Qed.

End OperationFacts.

(** * Stage selection *)

Lemma agentConfigs_wellOrdered : wellOrdered [] agentConfigs = true.
Proof. reflexivity. Qed.

Lemma includes_ext (xs ys : list string) :
  (forall n, n ∈ xs <-> n ∈ ys) ->
  forall n, JsArray.includes xs n = JsArray.includes ys n.
Proof.
  intros H n. destruct (JsArray.includes ys n) eqn:Hy.
  - apply includes_elem_of, H, includes_elem_of, Hy.
  - apply includes_not_elem_of. rewrite H.
    by apply includes_not_elem_of.
Qed.

Lemma eligible_ext (xs ys : list string) c :
  (forall n, n ∈ xs <-> n ∈ ys) -> eligible xs c = eligible ys c.
Proof.
  intros H. unfold eligible, dependenciesMet.
  rewrite (includes_ext xs ys H). f_equal.
  induction (dependencies c) as [|d ds IH]; [done|].
  simpl. by rewrite (includes_ext xs ys H), IH.
Qed.

Lemma firstEligible_ext configs (xs ys : list string) :
  (forall n, n ∈ xs <-> n ∈ ys) -> firstEligible configs xs = firstEligible configs ys.
Proof.
  intros H. unfold firstEligible. induction configs as [|c rest IH]; [done|].
  simpl. rewrite (eligible_ext xs ys c H). by rewrite IH.
Qed.

Section Selection.

Variable env : Env.
Variable agents : gmap string Agent.

Lemma pipelineLoop_cons pid project c rest s :
  pipelineLoop env agents pid project (c :: rest) s =
  if JsArray.includes (completedAgents s) (name c) then
    pipelineLoop env agents pid project rest s
  else if negb (dependenciesMet c (completedAgents s)) then
    throw (dependenciesNotMet c (completedAgents s))
  else runAgent env agents pid project c s (pipelineLoop env agents pid project rest).
Proof. reflexivity. Qed.

(** On a well-ordered configuration the loop executes the first eligible
    declaration, and when there is none every declaration is completed and
    the loop ends at once. *)
Lemma pipelineLoop_selects pid project s configs :
  forall earlier,
    wellOrdered earlier configs = true ->
    (forall n, n ∈ earlier -> n ∈ completedAgents s) ->
    match firstEligible configs (completedAgents s) with
    | Some c =>
        exists skipped rest,
          configs = (skipped ++ c :: rest)%list /\
          forall w,
            pipelineLoop env agents pid project configs s w =
            runAgent env agents pid project c s
              (pipelineLoop env agents pid project rest) w
    | None =>
        (forall c, c ∈ configs -> name c ∈ completedAgents s) /\
        forall w, pipelineLoop env agents pid project configs s w = (Ok s, w)
    end.
Proof.
  induction configs as [|c rest IH]; intros earlier Hwo Hearlier.
  { split; [|done]. intros c Hc. by apply not_elem_of_nil in Hc. }
  simpl in Hwo. apply andb_prop in Hwo as [Hdeps Hrest].
  unfold firstEligible.
  change (find (eligible (completedAgents s)) (c :: rest))
    with (if eligible (completedAgents s) c then Some c
          else find (eligible (completedAgents s)) rest).
  unfold eligible at 1.
  destruct (JsArray.includes (completedAgents s) (name c)) eqn:Hin;
    cbn [negb andb].
  - assert (Hearlier' : forall n, n ∈ name c :: earlier -> n ∈ completedAgents s).
    { intros n Hn. apply elem_of_cons in Hn as [-> | Hn]; [|by apply Hearlier].
      by apply includes_elem_of. }
    specialize (IH (name c :: earlier) Hrest Hearlier').
    unfold firstEligible in IH.
    destruct (find (eligible (completedAgents s)) rest) as [c'|].
    + destruct IH as (skipped & rest' & -> & Hrun).
      exists (c :: skipped), rest'. split; [done|]. intros w.
      change ((c :: skipped) ++ c' :: rest')%list with (c :: (skipped ++ c' :: rest'))%list.
      rewrite pipelineLoop_cons, Hin. apply Hrun.
    + destruct IH as [Hall Hrun]. split.
      * intros c' Hc'. apply elem_of_cons in Hc' as [-> | Hc']; [|by apply Hall].
        by apply includes_elem_of.
      * intros w. rewrite pipelineLoop_cons, Hin. apply Hrun.
  - assert (Hmet : dependenciesMet c (completedAgents s) = true).
    { unfold dependenciesMet. apply forallb_forall. intros d Hd.
      rewrite forallb_forall in Hdeps.
      apply includes_elem_of, Hearlier, includes_elem_of, Hdeps, Hd. }
    rewrite Hmet. exists [], rest. split; [done|]. intros w.
    change ([] ++ c :: rest)%list with (c :: rest).
    by rewrite pipelineLoop_cons, Hin, Hmet.
Qed.

(** On any configuration: when declarations remain to complete and none is
    eligible, the loop throws the dependency error, and leaves the world as
    it is. *)
Lemma pipelineLoop_stuck pid project s configs :
  firstEligible configs (completedAgents s) = None ->
  (exists c, c ∈ configs /\ name c ∉ completedAgents s) ->
  exists c,
    c ∈ configs /\ missingDeps c (completedAgents s) <> [] /\
    forall w,
      pipelineLoop env agents pid project configs s w =
      (Threw (dependenciesNotMet c (completedAgents s)), w).
Proof.
  unfold firstEligible. induction configs as [|c rest IH]; intros Hnone (c0 & Hc0 & Hn0).
  { by apply not_elem_of_nil in Hc0. }
  simpl in Hnone. destruct (eligible (completedAgents s) c) eqn:He; [done|].
  unfold eligible in He.
  destruct (JsArray.includes (completedAgents s) (name c)) eqn:Hin; simpl in He.
  - destruct IH as (c' & Hc' & Hmiss & Hrun); [done| |].
    + exists c0. split; [|done]. apply elem_of_cons in Hc0 as [-> | Hc0]; [|done].
      by apply includes_elem_of in Hin.
    + exists c'. split; [by right|]. split; [done|]. intros w.
      by rewrite pipelineLoop_cons, Hin.
  - exists c. split; [by left|]. split.
    + unfold dependenciesMet in He. unfold missingDeps.
      apply not_true_iff_false in He. intros Hnil. apply He.
      apply forallb_forall. intros d Hd.
      destruct (JsArray.includes (completedAgents s) d) eqn:Hd'; [done|].
      assert (Hf : In d (List.filter
                           (fun dep => negb (JsArray.includes (completedAgents s) dep))
                           (dependencies c))).
      { apply filter_In. split; [done|]. by rewrite Hd'. }
      rewrite Hnil in Hf. done.
    + intros w. by rewrite pipelineLoop_cons, Hin, He.
Qed.

(** ** C5 *)

(** C5.  The run loop on the fixed configuration: for every state it selects
    as the next stage to execute the first declaration, in the order of
    [agentConfigs], that is not in [completedAgents] and whose dependencies
    are all in [completedAgents] - the loop goes on as [runAgent] of that
    declaration; when no declaration is eligible, all of them are completed
    and the loop ends without executing anything.  On any list of
    declarations, when some are not completed and none is eligible the loop
    throws the error [dependencies not met] instead of stalling, and changes
    nothing.  The selection depends on the set of completed stages only. *)
Theorem stage_selection pid project (s : AgentState) :
  match firstEligible agentConfigs (completedAgents s) with
  | Some c =>
      exists skipped rest,
        agentConfigs = (skipped ++ c :: rest)%list /\
        forall w,
          pipelineLoop env agents pid project agentConfigs s w =
          runAgent env agents pid project c s
            (pipelineLoop env agents pid project rest) w
  | None =>
      allCompleted s /\
      forall w, pipelineLoop env agents pid project agentConfigs s w = (Ok s, w)
  end
  /\ (forall configs,
        firstEligible configs (completedAgents s) = None ->
        (exists c, c ∈ configs /\ name c ∉ completedAgents s) ->
        exists c,
          c ∈ configs /\ missingDeps c (completedAgents s) <> [] /\
          forall w,
            pipelineLoop env agents pid project configs s w =
            (Threw (dependenciesNotMet c (completedAgents s)), w))
  /\ (forall s' : AgentState,
        (forall n, n ∈ completedAgents s <-> n ∈ completedAgents s') ->
        firstEligible agentConfigs (completedAgents s')
        = firstEligible agentConfigs (completedAgents s)).
Proof.
  split; [|split].
  - apply (pipelineLoop_selects pid project s agentConfigs []); [done|].
    intros n Hn. by apply not_elem_of_nil in Hn.
  - intros configs. apply pipelineLoop_stuck.
  - intros s' H. symmetry. by apply firstEligible_ext.
Qed.

End Selection.

(** The selection on some sets of completed stages, and on a configuration
    that is not well ordered. *)
Lemma selection_examples :
  (name <$> firstEligible agentConfigs []) = Some "Requirement"
  /\ (name <$> firstEligible agentConfigs ["Requirement"]) = Some "Frontend"
  /\ (name <$> firstEligible agentConfigs ["Requirement"; "Backend"]) = Some "Frontend"
  /\ (name <$> firstEligible agentConfigs ["Backend"; "Frontend"; "Requirement"])
     = Some "Validator"
  /\ (name <$> firstEligible agentConfigs ["Frontend"]) = Some "Requirement"
  /\ firstEligible agentConfigs
       ["Requirement"; "Frontend"; "Backend"; "Validator"; "Deployment"] = None
  /\ firstEligible
       [ {| name := "Validator"; description := EmptyString;
            dependencies := ["Frontend"] |} ] [] = None.
Proof. vm_compute. repeat split; reflexivity. Qed.

(** * What the agents do *)

Section AgentFacts.

Variable env : Env.
Variable h : Heuristics.
Variable agentName : string.

Lemma hoare_log cs pid level message :
  hoare (calls cs) (log env agentName pid level message)
    (returns (fun _ i => calls cs i)).
Proof. intros i Hi. by exists tt. Qed.

Lemma hoare_updateProgress cs pid progress :
  hoare (calls cs) (updateProgress agentName pid progress)
    (returns (fun _ i => calls cs i)).
Proof. intros i Hi. by exists tt. Qed.

Lemma hoare_generateContent cs prompt systemInstruction :
  hoare (calls cs) (generateContent env prompt systemInstruction)
    (returns (fun r i =>
                r = respond env (List.length cs) prompt systemInstruction
                /\ calls (cs ++ [(prompt, systemInstruction)]) i)).
Proof.
  intros i Hi. unfold calls in *. subst cs. eexists. split; [done|]. by split.
Qed.

(** The [catch] block of an agent's [execute]: it logs the failure and
    returns it. *)
Lemma hoare_caught cs pid prefix message :
  hoare (calls cs)
    (log env agentName pid L_error (prefix ++ message) ;; ret (failure message))
    (fun r i => r = Ok (failure message) /\ calls cs i).
Proof. intros i Hi. by split. Qed.

Lemma hoare_liftRes {A} (P : IO -> Prop) (r : Res A) :
  hoare P (liftRes r) (fun r' i => r' = r /\ P i).
Proof. by intros i Hi. Qed.

Ltac io_step :=
  eapply hoare_bind_returns;
  [ first [ apply hoare_log | apply hoare_updateProgress
          | apply hoare_generateContent ]
  | intros ? ].

(** What an agent's [execute] does when its body throws [message] after the
    calls [cs']: it returns the failure. *)
Lemma hoare_execute_throws (body : ST IO AgentResult) cs cs' pid prefix message :
  hoare (calls cs) body (fun r i => r = Threw message /\ calls cs' i) ->
  hoare (calls cs)
    (tryCatch body
       (fun m => log env agentName pid L_error (prefix ++ m) ;; ret (failure m)))
    (fun r i => r = Ok (failure message) /\ calls cs' i).
Proof.
  intros Hbody.
  apply hoare_tryCatch with (R := fun e i => e = message /\ calls cs' i).
  - eapply hoare_post; [exact Hbody|]. by intros r i [-> Hi].
  - intros e. apply hoare_assume. intros ->. apply hoare_caught.
Qed.

(** What an agent's [execute] does when its body returns. *)
Lemma hoare_execute_returns (body : ST IO AgentResult) cs cs' pid prefix result :
  hoare (calls cs) body (fun r i => r = Ok result /\ calls cs' i) ->
  hoare (calls cs)
    (tryCatch body
       (fun m => log env agentName pid L_error (prefix ++ m) ;; ret (failure m)))
    (fun r i => r = Ok result /\ calls cs' i).
Proof.
  intros Hbody. apply hoare_tryCatch with (R := fun _ _ => False).
  - eapply hoare_post; [exact Hbody|]. by intros r i [-> Hi].
  - intros e i [].
Qed.

(** The Frontend stage fails at once when the output of the Requirement
    stage is missing. *)
Lemma frontend_requires cs pid cfg (prev : gmap string JsVal) :
  Js.truthy (default JUndefined (prev !! "Requirement")) = false ->
  hoare (calls cs) (frontendExecute env h agentName pid cfg prev)
    (fun r i => r = Ok (failure "Requirements not found from previous agent")
                /\ calls cs i).
Proof.
  intros Hreq. unfold frontendExecute. apply hoare_execute_throws.
  do 2 io_step. rewrite Hreq. by apply hoare_throw.
Qed.

(** So does the Backend stage. *)
Lemma backend_requires cs pid cfg (prev : gmap string JsVal) :
  Js.truthy (default JUndefined (prev !! "Requirement")) = false ->
  hoare (calls cs) (backendExecute env h agentName pid cfg prev)
    (fun r i => r = Ok (failure "Requirements not found from previous agent")
                /\ calls cs i).
Proof.
  intros Hreq. unfold backendExecute. apply hoare_execute_throws.
  do 2 io_step. rewrite Hreq. by apply hoare_throw.
Qed.

(** The Backend stage that finds no backend is needed returns success with
    the output [frontendOnly] and no file, and calls the generation backend
    not at all. *)
Lemma backend_skips cs pid cfg (prev : gmap string JsVal) :
  Js.truthy (default JUndefined (prev !! "Requirement")) = true ->
  checkIfBackendNeeded cfg (default JUndefined (prev !! "Requirement")) = Ok false ->
  hoare (calls cs) (backendExecute env h agentName pid cfg prev)
    (fun r i =>
       r = Ok {| success := true; output := Some frontendOnly;
                 error := None; files := None |}
       /\ calls cs i).
Proof.
  intros Hreq Hneeds. unfold backendExecute. apply hoare_execute_returns.
  do 2 io_step. rewrite Hreq, Hneeds. simpl.
  eapply hoare_bind_returns with (R := fun b i => b = false /\ calls cs i).
  { intros i Hi. by exists false. }
  intros b. apply hoare_assume. intros ->. simpl. io_step. by apply hoare_ret.
Qed.

End AgentFacts.

Section ValidatorFacts.

Variable env : Env.
Variable h : Heuristics.
Variable agentName : string.

Ltac io_step :=
  eapply hoare_bind_returns;
  [ first [ apply hoare_log | apply hoare_updateProgress
          | apply hoare_generateContent ]
  | intros ? ].

(** [generateFixes] on a list of issues that is not empty makes one call to
    the generation backend and returns what [fixesFrom] makes of the
    response. *)
Lemma hoare_generateFixes cs issues code :
  issues <> [] ->
  hoare (calls cs) (Validator.generateFixes env issues code)
    (returns (fun fixes i =>
       fixes = Validator.fixesFrom
                 (respond env (List.length cs)
                    (Validator.fixRequest issues code) fixSystemInstruction)
       /\ calls (cs ++ [(Validator.fixRequest issues code, fixSystemInstruction)]) i)).
Proof.
  intros Hissues. unfold Validator.generateFixes.
  destruct issues as [|issue issues]; [done|]. simpl.
  apply hoare_tryCatch with (R := fun _ _ => False); [|by intros e i []].
  io_step. apply hoare_assume. intros ->. apply hoare_ret. intros i Hi.
  eexists. by split.
Qed.

(** The Validator stage fails at once when the output of the Frontend stage
    is missing. *)
Lemma validator_requires_frontend cs pid cfg (prev : gmap string JsVal) :
  Js.truthy (default JUndefined (prev !! "Frontend")) = false ->
  hoare (calls cs) (Validator.validatorExecute env h agentName pid cfg prev)
    (fun r i => r = Ok (failure "Frontend output not found from previous agent")
                /\ calls cs i).
Proof.
  intros Hfe. unfold Validator.validatorExecute. apply hoare_execute_throws.
  do 2 io_step. rewrite Hfe. by apply hoare_throw.
Qed.

(** With the output of the Frontend stage at hand, whatever the output of
    the Backend stage, the Validator stage sends its validation request; when
    that call fails, the stage returns the failure. *)
Lemma validator_call_fails cs pid cfg (prev : gmap string JsVal) :
  let code := Validator.codeToValidate (default JUndefined (prev !! "Frontend"))
                (default JUndefined (prev !! "Backend")) in
  let request := Validator.validationRequest code in
  let response := respond env (List.length cs) request validationSystemInstruction in
  Js.truthy (default JUndefined (prev !! "Frontend")) = true ->
  ai_success response = false ->
  hoare (calls cs) (Validator.validatorExecute env h agentName pid cfg prev)
    (fun r i =>
       r = Ok (failure (orString (default EmptyString (ai_error response))
                                 "Failed to validate code"))
       /\ calls (cs ++ [(request, validationSystemInstruction)]) i).
Proof.
  intros code request response Hfe Hfail.
  unfold Validator.validatorExecute. apply hoare_execute_throws.
  do 2 io_step. rewrite Hfe. simpl. do 2 io_step.
  apply hoare_assume. intros ->. fold code request response. rewrite Hfail. simpl.
  by apply hoare_throw.
Qed.

(** When the validation call succeeds and the report has no critical issue,
    the stage returns [productionReady] after that one call. *)
Lemma validator_passes cs pid cfg (prev : gmap string JsVal) :
  let code := Validator.codeToValidate (default JUndefined (prev !! "Frontend"))
                (default JUndefined (prev !! "Backend")) in
  let request := Validator.validationRequest code in
  let response := respond env (List.length cs) request validationSystemInstruction in
  let results := Validator.parseValidationResults h (ai_content response) in
  Js.truthy (default JUndefined (prev !! "Frontend")) = true ->
  ai_success response = true ->
  Validator.criticalIssues results = [] ->
  hoare (calls cs) (Validator.validatorExecute env h agentName pid cfg prev)
    (fun r i =>
       r = Ok (Validator.productionReady (ai_content response) results)
       /\ calls (cs ++ [(request, validationSystemInstruction)]) i).
Proof.
  intros code request response results Hfe Hok Hnone. subst results.
  unfold Validator.validatorExecute. apply hoare_execute_returns.
  do 2 io_step. rewrite Hfe. simpl. do 2 io_step.
  apply hoare_assume. intros ->. fold code request response. rewrite Hok. simpl.
  io_step. rewrite Hnone. simpl. do 2 io_step. by apply hoare_ret.
Qed.

(** When the validation call succeeds and the report has critical issues,
    the stage makes one more call, the fix request, and returns [needsFixes]
    with the files that [fixesFrom] makes of the response. *)
Lemma validator_fixes cs pid cfg (prev : gmap string JsVal) :
  let code := Validator.codeToValidate (default JUndefined (prev !! "Frontend"))
                (default JUndefined (prev !! "Backend")) in
  let request := Validator.validationRequest code in
  let response := respond env (List.length cs) request validationSystemInstruction in
  let results := Validator.parseValidationResults h (ai_content response) in
  let fixRequest := Validator.fixRequest (Validator.criticalIssues results) code in
  let fixResponse := respond env (S (List.length cs)) fixRequest fixSystemInstruction in
  Js.truthy (default JUndefined (prev !! "Frontend")) = true ->
  ai_success response = true ->
  Validator.criticalIssues results <> [] ->
  hoare (calls cs) (Validator.validatorExecute env h agentName pid cfg prev)
    (fun r i =>
       r = Ok (Validator.needsFixes (ai_content response) results
                 (Validator.fixesFrom fixResponse))
       /\ calls (cs ++ [(request, validationSystemInstruction);
                        (fixRequest, fixSystemInstruction)]) i).
Proof.
  intros code request response results fixRequest fixResponse Hfe Hok Hsome.
  subst fixResponse fixRequest results.
  unfold Validator.validatorExecute. apply hoare_execute_returns.
  do 2 io_step. rewrite Hfe. simpl. do 2 io_step.
  apply hoare_assume. intros ->. fold code request response. rewrite Hok. simpl.
  io_step.
  destruct (Validator.criticalIssues
              (Validator.parseValidationResults h (ai_content response)))
    as [|issue issues] eqn:Hissues; [done|].
  simpl. io_step.
  eapply hoare_bind_returns; [by apply hoare_generateFixes|]. intros fixes.
  apply hoare_assume. intros ->. do 2 io_step. apply hoare_ret.
  intros i Hi. split.
  - by rewrite length_app, Nat.add_comm.
  - unfold calls in *. by rewrite Hi, <- app_assoc.
Qed.

End ValidatorFacts.

(** * The properties of the specification *)

Section Invariants.

Variable env : Env.
Variable agents : gmap string Agent.

(** ** C6 *)

(** C6.  In every world that the program can reach, the execution state of
    every project, and every state that the run loop ever wrote, is well
    formed ([stateOk]): an agent is in [completedAgents] only if it is
    declared with all its declared dependencies standing before it in
    [completedAgents] and an execution of it for this project returned
    success (whose output [agentOutputs] holds); and [agentOutputs] has an
    entry for an agent if and only if the agent is in [completedAgents]. *)
Theorem execution_state_invariant w :
  reachable env agents w ->
  (forall pid p s,
     projects w !! pid = Some p -> state p = Some s -> stateOk pid (journal w) s)
  /\ (forall pid s, J_state pid s ∈ journal w -> stateOk pid (journal w) s).
Proof.
  intros Hreach. destruct (reachable_Inv env agents w Hreach) as (_ & Hp & Hs).
  split; [|done]. intros pid p s Hlook Hstate.
  destruct (Hp pid p Hlook) as [Hok _]. by rewrite Hstate in Hok.
Qed.

(** ** C10 *)

(** C10.  In every world that the program can reach - the files are added
    by the run loop and their content is replaced by [updateProjectFile] -
    every stored file has as [size] the length of its [content]; replacing
    the content of a stored file stores the new content with its length. *)
Theorem file_size_invariant w :
  reachable env agents w ->
  (forall id f,
     projectFiles w !! id = Some f ->
     f_size f = Z.of_nat (String.length (f_content f)))
  /\ (forall id newContent f,
        projectFiles w !! id = Some f ->
        exists f',
          projectFiles (updateProjectFile id newContent w).2 !! id = Some f'
          /\ f_content f' = newContent
          /\ f_size f' = Z.of_nat (String.length newContent)).
Proof.
  intros Hreach. destruct (reachable_Inv env agents w Hreach) as (Hf & _ & _).
  split.
  - intros id f Hlook. by apply (map_Forall_lookup_1 _ _ _ _ Hf Hlook).
  - intros id newContent f Hlook. unfold updateProjectFile. rewrite Hlook. simpl.
    eexists. by rewrite lookup_insert_eq.
Qed.

End Invariants.

Lemma repairedRun_reachable : reachable fixedRun (agentsOf fixedRun) repairedRun.2.
Proof. unfold repairedRun. apply reach_start, reach_create, reach_empty. Qed.

Lemma execution_state_invariant_witness :
  exists p s,
    projects repairedRun.2 !! "id-0" = Some p /\ state p = Some s
    /\ completedAgents s =
         ["Requirement"; "Frontend"; "Backend"; "Validator"; "Deployment"]
    /\ stateOk "id-0" (journal repairedRun.2) s.
Proof.
  eexists _, _. split; [vm_compute; reflexivity|].
  split; [reflexivity|]. split; [reflexivity|].
  destruct (execution_state_invariant fixedRun (agentsOf fixedRun) repairedRun.2
              repairedRun_reachable) as [H _].
  eapply H; [vm_compute; reflexivity | reflexivity].
Defined.

Lemma file_size_invariant_witness :
  filesOf repairedRun.2 = [ ("/src/App.tsx", 32); ("/src/fixed/App.tsx", 45) ]
  /\ forall id f,
       projectFiles repairedRun.2 !! id = Some f ->
       f_size f = Z.of_nat (String.length (f_content f)).
Proof.
  split; [vm_compute; reflexivity|].
  destruct (file_size_invariant fixedRun (agentsOf fixedRun) repairedRun.2
              repairedRun_reachable) as [H _].
  exact H.
Defined.

Section Resume.

Variable env : Env.
Variable agents : gmap string Agent.

Lemma updateProjectStatus_exact pid st w p :
  projects w !! pid = Some p ->
  updateProjectStatus env pid st w =
  (Ok tt,
   {| projects := <[pid := withStatus st (dateNow env (clock (io w))) p]> (projects w);
      projectFiles := projectFiles w;
      io := (newDate env (io w)).2;
      journal := journal w ++ [J_status pid st] |}).
Proof.
  intros H. unfold updateProjectStatus, bind, getProject. by rewrite H.
Qed.

Lemma emitW_exact e w : emitW e w = (Ok tt, setIO (emit e (io w)).2 w).
Proof. done. Qed.

(** When every agent of the configurations is completed, the loop skips
    them all. *)
Lemma pipelineLoop_done pid project configs s w :
  (forall c, c ∈ configs -> name c ∈ completedAgents s) ->
  pipelineLoop env agents pid project configs s w = (Ok s, w).
Proof.
  induction configs as [|c rest IH]; intros Hall; [done|].
  rewrite pipelineLoop_cons.
  assert (Hc : JsArray.includes (completedAgents s) (name c) = true).
  { apply includes_elem_of, Hall. by left. }
  rewrite Hc. apply IH. intros c' Hc'. apply Hall. by right.
Qed.

(** ** C7 *)

(** C7.  Resuming a project whose status is [completed], in a world that the
    program can reach: the call returns; it executes no agent and writes no
    execution state - the journal gains the two status writes, [running]
    and [completed], and nothing else; the stored execution state is the
    same and the status is [completed] again; it emits [project-resumed] and
    then exactly one [project-completed]; and it neither calls the
    generation backend nor logs nor stores a file. *)
Theorem resume_completed pid p w :
  reachable env agents w ->
  projects w !! pid = Some p ->
  status p = S_completed ->
  exists w',
    resumeProject env agents pid w = (Ok tt, w')
    /\ journal w' =
       (journal w ++ [J_status pid S_running; J_status pid S_completed])%list
    /\ emitted (io w') =
       (emitted (io w) ++ [Ev_project_resumed pid; Ev_project_completed pid])%list
    /\ aiCalls (io w') = aiCalls (io w)
    /\ agentLogs (io w') = agentLogs (io w)
    /\ projectFiles w' = projectFiles w
    /\ exists p',
         projects w' !! pid = Some p' /\ state p' = state p
         /\ status p' = S_completed /\ config p' = config p.
Proof.
  intros Hreach Hp Hst.
  destruct (reachable_Inv env agents w Hreach) as (_ & Hps & _).
  destruct (Hps pid p Hp) as [_ Hall]. specialize (Hall Hst).
  unfold resumeProject, bind at 1, getProject. rewrite Hp.
  unfold bind at 1. rewrite (updateProjectStatus_exact pid S_running w p Hp).
  unfold bind at 1. rewrite emitW_exact.
  unfold bind at 1, deref. cbn [projects setIO]. rewrite lookup_insert_eq.
  cbn [default]. unfold executeAgentPipeline, bind at 1.
  rewrite pipelineLoop_done by (intros c Hc; by apply Hall).
  unfold bind at 1.
  erewrite updateProjectStatus_exact by (cbn [projects setIO]; apply lookup_insert_eq).
  rewrite emitW_exact. eexists. split; [reflexivity|].
  cbn [journal io emitted aiCalls agentLogs projectFiles projects setIO emit
       newDate fst snd].
  rewrite <- !app_assoc. repeat (split; [done|]).
  eexists. rewrite lookup_insert_eq. done.
Qed.

End Resume.

Lemma completedRun_reachable : reachable cleanRun (agentsOf cleanRun) completedRun.2.
Proof. unfold completedRun. apply reach_start, reach_create, reach_empty. Qed.

Lemma resume_completed_witness :
  exists p,
    projects completedRun.2 !! "id-0" = Some p /\ status p = S_completed
    /\ exists w',
         resumeProject cleanRun (agentsOf cleanRun) "id-0" completedRun.2 = (Ok tt, w')
         /\ journal w' =
            (journal completedRun.2
               ++ [J_status "id-0" S_running; J_status "id-0" S_completed])%list
         /\ emitted (io w') =
            (emitted (io completedRun.2)
               ++ [Ev_project_resumed "id-0"; Ev_project_completed "id-0"])%list
         /\ aiCalls (io w') = aiCalls (io completedRun.2)
         /\ agentLogs (io w') = agentLogs (io completedRun.2)
         /\ projectFiles w' = projectFiles completedRun.2
         /\ exists p',
              projects w' !! "id-0" = Some p' /\ state p' = state p
              /\ status p' = S_completed /\ config p' = config p.
Proof.
  assert (Hl : exists p, projects completedRun.2 !! "id-0" = Some p
                         /\ status p = S_completed).
  { eexists. split; [vm_compute; reflexivity | reflexivity]. }
  destruct Hl as (p & Hp & Hs). exists p. split; [exact Hp|]. split; [exact Hs|].
  exact (resume_completed cleanRun (agentsOf cleanRun) "id-0" p completedRun.2
           completedRun_reachable Hp Hs).
Defined.

(** * What the run loop cannot disturb *)

Section FrameFacts.

Variable env : Env.
Variable agents : gmap string Agent.
Variable F : World -> Prop.
Hypothesis HF : framed F.

Lemma hoare_bind_frame {A B} (m : ST World A) (k : A -> ST World B) :
  hoare F m (fun _ w => F w) ->
  (forall a, hoare F (k a) (fun _ w => F w)) ->
  hoare F (bind m k) (fun _ w => F w).
Proof.
  intros Hm Hk. apply (hoare_bind F (fun _ w => F w)); [|done].
  eapply hoare_post; [exact Hm|]. by intros [a|e] w.
Qed.

Lemma frame_liftIO {A} (m : ST IO A) : hoare F (liftIO m) (fun _ w => F w).
Proof. apply hoare_liftIO. apply HF. Qed.

Lemma frame_updateProjectState pid s :
  hoare F (updateProjectState env pid s) (fun _ w => F w).
Proof.
  destruct HF as (Hio & Hps & _ & Hst & _). intros w Hw.
  unfold updateProjectState, bind, getProject.
  destruct (projects w !! pid) as [p|]; [|done].
  unfold liftIO, newDate. cbn [fst snd]. by apply Hst, Hps, Hio.
Qed.

Lemma frame_execute agent pid n cfg outs :
  hoare F (execute agent pid n cfg outs) (fun _ w => F w).
Proof.
  destruct HF as (Hio & _ & _ & _ & Hex). intros w Hw. unfold execute.
  destruct (agent pid cfg outs (io w)) as [o i]. cbn [fst snd]. by apply Hex, Hio.
Qed.

Lemma frame_saveFiles pid fs : hoare F (saveFiles env pid fs) (fun _ w => F w).
Proof.
  destruct HF as (Hio & _ & Hfs & _ & _).
  induction fs as [|file rest IH]; [by intros w Hw|].
  simpl. apply hoare_bind_frame; [|by intros ?].
  intros w Hw. unfold addProjectFile, bind, liftIO, newUUID, newDate.
  cbn [fst snd]. by apply Hfs, Hio, Hio.
Qed.

Lemma frame_onAgentError pid n s message :
  hoare F (onAgentError env pid n s message) (fun _ w => F w).
Proof.
  unfold onAgentError. apply hoare_bind_frame; [apply frame_liftIO|]. intros now.
  apply hoare_bind_frame; [apply frame_updateProjectState|]. intros ?.
  apply hoare_bind_frame; [apply frame_liftIO|]. intros ?.
  by apply hoare_throw.
Qed.

Lemma frame_runAgent pid project c s continue :
  (forall s', hoare F (continue s') (fun _ w => F w)) ->
  hoare F (runAgent env agents pid project c s continue) (fun _ w => F w).
Proof.
  intros Hcontinue. unfold runAgent.
  apply hoare_bind_frame; [apply frame_updateProjectState|]. intros ?.
  apply hoare_bind_frame; [apply frame_liftIO|]. intros ?.
  destruct (agents !! name c) as [agent|]; [|by apply hoare_throw].
  apply hoare_bind_frame; [apply frame_execute|]. intros [result|message].
  2: apply frame_onAgentError.
  destruct (success result).
  - apply hoare_bind_frame.
    { destruct (files result); [apply frame_saveFiles | by apply hoare_ret]. }
    intros ?. apply hoare_bind_frame; [apply frame_liftIO|]. intros ?.
    apply hoare_bind_frame; [apply frame_updateProjectState|]. intros ?.
    apply Hcontinue.
  - apply hoare_bind_frame; [apply frame_liftIO|]. intros now.
    apply frame_onAgentError.
Qed.

Lemma frame_pipelineLoop pid project configs :
  forall s, hoare F (pipelineLoop env agents pid project configs s) (fun _ w => F w).
Proof.
  induction configs as [|c rest IH]; intros s; [by apply hoare_ret|].
  rewrite pipelineLoop_cons.
  destruct (JsArray.includes (completedAgents s) (name c)); [apply IH|].
  destruct (negb (dependenciesMet c (completedAgents s))); [by apply hoare_throw|].
  by apply frame_runAgent.
Qed.

End FrameFacts.

(** * The status writes of the operations *)

Lemma hoare_conj {S A} (P P' : S -> Prop) (m : ST S A) (Q Q' : Res A -> S -> Prop) :
  hoare P m Q -> hoare P' m Q' ->
  hoare (fun s => P s /\ P' s) m (fun r s => Q r s /\ Q' r s).
Proof. intros H H' s [Hs Hs']. split; [by apply H | by apply H']. Qed.

Lemma statusWrites_app j j' :
  statusWrites (j ++ j') = (statusWrites j ++ statusWrites j')%list.
Proof.
  induction j as [|e j IH]; [done|]. destruct e; simpl; by rewrite IH.
Qed.

Lemma statusesWritten_framed l : framed (statusesWritten l).
Proof.
  unfold framed, statusesWritten. split; [done|]. split; [done|]. split; [done|].
  split; intros; simpl; rewrite statusWrites_app; simpl; by rewrite app_nil_r.
Qed.

Section StatusFacts.

Variable env : Env.
Variable agents : gmap string Agent.

Lemma writes_updateProjectStatus pid st' l :
  hoare (fun w => is_Some (projects w !! pid) /\ statusesWritten l w)
    (updateProjectStatus env pid st')
    (fun _ w => statusesWritten (l ++ [st']) w).
Proof.
  intros w [[p Hp] Hl]. rewrite (updateProjectStatus_exact env pid st' w p Hp).
  unfold statusesWritten in *. simpl. by rewrite statusWrites_app, Hl.
Qed.

(** [updateProjectStatus] between two iterations, with the status writes *)
Lemma hoare_status_write pid st st' s l :
  (st' = S_completed -> allCompleted s) ->
  hoare (fun w => between pid st s w /\ statusesWritten l w)
    (updateProjectStatus env pid st')
    (returns (fun _ w => between pid st' s w /\ statusesWritten (l ++ [st']) w)).
Proof.
  intros Hall. eapply hoare_consequence.
  - apply hoare_conj.
    + by apply (hoare_updateProjectStatus env pid st st' s).
    + apply (writes_updateProjectStatus pid st' l).
  - intros w [Hb Hl]. split; [done|]. split; [|done].
    destruct Hb as [_ (p & Hp & _)]. by eauto.
  - intros r w [(u & -> & Hb) Hl]. by exists u.
Qed.

Lemma hoare_emit_written (P : World -> Prop) l e :
  (forall w i, P w -> P (setIO i w)) ->
  hoare (fun w => P w /\ statusesWritten l w) (emitW e)
    (returns (fun _ w => P w /\ statusesWritten l w)).
Proof.
  intros HP. apply hoare_emitW. intros w i [Hw Hl]. split; [by apply HP | done].
Qed.

(** The pipeline writes the status [completed] at its end and no status
    before. *)
Lemma writes_executeAgentPipeline pid st project l :
  st <> S_completed ->
  hoare (fun w => between pid st (default initialState (state project)) w
                  /\ statusesWritten l w)
    (executeAgentPipeline env agents pid project)
    (fun r w =>
       Inv w /\
       match r with
       | Ok _ => hasStatus pid S_completed w /\ statusesWritten (l ++ [S_completed]) w
       | Threw _ => hasStatus pid st w /\ statusesWritten l w
       end).
Proof.
  intros Hst. unfold executeAgentPipeline.
  eapply hoare_bind with
    (R := fun s' w => allCompleted s' /\ (between pid st s' w /\ statusesWritten l w)).
  { eapply hoare_post.
    - apply hoare_conj.
      + apply (hoare_pipelineLoop env agents pid st project agentConfigs Hst).
        by intros c Hc.
      + apply (frame_pipelineLoop env agents _ (statusesWritten_framed l)).
    - intros [s'|e] w [Hpost Hl]; simpl in *.
      + destruct Hpost as (Hb & _ & Hall). split; [|done]. intros c Hc. by apply Hall.
      + destruct Hpost as [HI Hs]. done. }
  intros s'. apply hoare_assume. intros Hall.
  eapply hoare_bind_returns; [by apply (hoare_status_write pid st S_completed s' l)|].
  intros ?. eapply hoare_post.
  - apply (hoare_emit_written (between pid S_completed s')). done.
  - intros r w (u & -> & ((HI & Hs & _) & _) & Hl). done.
Qed.

Lemma hoare_deref_written pid st s project l :
  hoare (fun w => between pid st s w /\ statusesWritten l w) (deref pid project)
    (returns (fun p w => (between pid st s w /\ statusesWritten l w)
                         /\ default initialState (state p) = s)).
Proof.
  intros w [Hw Hl]. unfold deref. simpl. eexists. split; [done|]. split; [done|].
  destruct Hw as [_ (p & -> & Hs)]. done.
Qed.

(** [startProject] on a stored project, whatever its status: the call
    returns; it writes the status [running] and then either [completed] or
    [error], and that is the status it leaves. *)
Lemma writes_startProject pid p l :
  hoare (fun w => (Inv w /\ projects w !! pid = Some p) /\ statusesWritten l w)
    (startProject env agents pid)
    (fun r w =>
       r = Ok tt /\ Inv w /\
       ((hasStatus pid S_completed w
         /\ statusesWritten (l ++ [S_running; S_completed]) w)
        \/ (hasStatus pid S_error w
            /\ statusesWritten (l ++ [S_running; S_error]) w))).
Proof.
  unfold startProject.
  eapply hoare_tryCatch with
    (R := fun _ w => (Inv w /\ hasStatus pid S_running w)
                     /\ statusesWritten (l ++ [S_running]) w).
  - eapply hoare_bind_returns; [apply hoare_getProject|]. intros [project|].
    2: { intros w [[[_ Hp] _] Hf]. congruence. }
    eapply hoare_bind_returns.
    { eapply hoare_pre.
      - by apply (hoare_status_write pid (status p) S_running
                    (default initialState (state p)) l).
      - intros w [[[HI Hp] Hl] _]. split; [by apply between_lookup | done]. }
    intros ?.
    eapply hoare_bind_returns with
      (R := fun _ w => between pid S_running initialState w
                       /\ statusesWritten (l ++ [S_running]) w).
    { eapply hoare_consequence.
      - apply hoare_conj.
        + by apply (hoare_updateProjectState env pid S_running initialState).
        + apply (frame_updateProjectState env _ (statusesWritten_framed (l ++ [S_running]))).
      - intros w [[(HI & Hs & _) _] Hl]. split; [|done].
        split; [done|split; [done|]]. apply stateOk_initial.
      - intros r w [(u & -> & Hb) Hl]. exists u. split; [done|]. split; [exact Hb | exact Hl]. }
    intros ?. eapply hoare_bind_returns.
    { apply (hoare_emit_written (between pid S_running initialState)). done. }
    intros ?. eapply hoare_bind_returns; [apply hoare_deref_written|].
    intros project'. eapply hoare_post.
    + eapply hoare_pre; [by apply (writes_executeAgentPipeline pid S_running)|].
      intros w [[Hb Hl] Heq]. by rewrite Heq.
    + intros [[]|e] w [HI [Hs Hl]]; simpl.
      * split; [done|]. split; [done|]. left. split; [done|].
        by rewrite <- app_assoc in Hl.
      * done.
  - intros e.
    eapply hoare_bind_returns with
      (R := fun _ w => (Inv w /\ hasStatus pid S_error w)
                       /\ statusesWritten ((l ++ [S_running]) ++ [S_error]) w).
    { eapply hoare_consequence.
      - apply hoare_conj.
        + by apply (hoare_setStatus env pid S_error).
        + apply (writes_updateProjectStatus pid S_error (l ++ [S_running])).
      - intros w [[HI (p' & Hp' & _)] Hl]. split; [split; [done|by eauto]|].
        split; [by eauto | done].
      - intros r w [(u & -> & Hb) Hl]. exists u. split; [done|].
        split; [exact Hb | exact Hl]. }
    intros ?. eapply hoare_post.
    + apply (hoare_emit_written (fun w => Inv w /\ hasStatus pid S_error w)). done.
    + intros r w (u & -> & [HI Hs] & Hl). destruct u. split; [done|].
      split; [done|]. right. split; [done|]. by rewrite <- app_assoc in Hl.
Qed.

(** [pauseProject] on a stored project, whatever its status *)
Lemma writes_pauseProject pid p l :
  hoare (fun w => (Inv w /\ projects w !! pid = Some p) /\ statusesWritten l w)
    (pauseProject env pid)
    (fun r w => r = Ok tt /\ Inv w /\ hasStatus pid S_paused w
                /\ statusesWritten (l ++ [S_paused]) w).
Proof.
  unfold pauseProject.
  eapply hoare_bind_returns with
    (R := fun _ w => (Inv w /\ hasStatus pid S_paused w)
                     /\ statusesWritten (l ++ [S_paused]) w).
  { eapply hoare_consequence.
    - apply hoare_conj.
      + by apply (hoare_setStatus env pid S_paused).
      + apply (writes_updateProjectStatus pid S_paused l).
    - intros w [[HI Hp] Hl]. split; [split; [done|by eauto]|].
      split; [by eauto | done].
    - intros r w [(u & -> & Hb) Hl]. exists u. split; [done|].
      split; [exact Hb | exact Hl]. }
  intros ?. eapply hoare_post.
  - apply (hoare_emit_written (fun w => Inv w /\ hasStatus pid S_paused w)). done.
  - intros r w (u & -> & [HI Hs] & Hl). by destruct u.
Qed.

(** [resumeProject] on a stored project, whatever its status: it writes
    the status [running]; when it returns it has then written [completed],
    and when it throws it has written no other status. *)
Lemma writes_resumeProject pid p l :
  hoare (fun w => (Inv w /\ projects w !! pid = Some p) /\ statusesWritten l w)
    (resumeProject env agents pid)
    (fun r w =>
       Inv w /\
       match r with
       | Ok _ => hasStatus pid S_completed w
                 /\ statusesWritten (l ++ [S_running; S_completed]) w
       | Threw _ => hasStatus pid S_running w
                    /\ statusesWritten (l ++ [S_running]) w
       end).
Proof.
  unfold resumeProject.
  eapply hoare_bind_returns; [apply hoare_getProject|]. intros [project|].
  2: { intros w [[[_ Hp] _] Hf]. congruence. }
  eapply hoare_bind_returns.
  { eapply hoare_pre.
    - by apply (hoare_status_write pid (status p) S_running
                  (default initialState (state p)) l).
    - intros w [[[HI Hp] Hl] _]. split; [by apply between_lookup | done]. }
  intros ?. eapply hoare_bind_returns.
  { apply (hoare_emit_written
             (between pid S_running (default initialState (state p)))). done. }
  intros ?. eapply hoare_bind_returns; [apply hoare_deref_written|].
  intros project'. eapply hoare_post.
  - eapply hoare_pre; [by apply (writes_executeAgentPipeline pid S_running)|].
    intros w [[Hb Hl] Heq]. by rewrite Heq.
  - intros [[]|e] w [HI [Hs Hl]]; simpl; [|done].
    split; [done|]. split; [done|]. by rewrite <- app_assoc in Hl.
Qed.

End StatusFacts.

Section Lifecycle.

Variable env : Env.
Variable agents : gmap string Agent.

(** ** C3 *)

(** C3, as amended.  A project is created with the status [pending].  On a
    stored project, in a world that the program can reach and whatever the
    status of the project, terminal or not: [pauseProject] returns and sets
    the status [paused]; [startProject] returns, sets the status [running]
    and then [completed] or [error], which is the status it leaves;
    [resumeProject] sets the status [running], and when it returns it has
    then set [completed], which is the status it leaves. *)
Theorem status_transitions w pid p :
  reachable env agents w ->
  projects w !! pid = Some p ->
  (forall insertProject,
     exists created,
       (createProject env insertProject w).1 = Ok created
       /\ status created = S_pending
       /\ projects (createProject env insertProject w).2 !! p_id created = Some created)
  /\ ((pauseProject env pid w).1 = Ok tt
      /\ hasStatus pid S_paused (pauseProject env pid w).2
      /\ statusWrites (journal (pauseProject env pid w).2)
         = (statusWrites (journal w) ++ [S_paused])%list)
  /\ ((startProject env agents pid w).1 = Ok tt
      /\ ((hasStatus pid S_completed (startProject env agents pid w).2
           /\ statusWrites (journal (startProject env agents pid w).2)
              = (statusWrites (journal w) ++ [S_running; S_completed])%list)
          \/ (hasStatus pid S_error (startProject env agents pid w).2
              /\ statusWrites (journal (startProject env agents pid w).2)
                 = (statusWrites (journal w) ++ [S_running; S_error])%list)))
  /\ (exists rest,
        statusWrites (journal (resumeProject env agents pid w).2)
        = (statusWrites (journal w) ++ S_running :: rest)%list)
  /\ ((resumeProject env agents pid w).1 = Ok tt ->
      hasStatus pid S_completed (resumeProject env agents pid w).2
      /\ statusWrites (journal (resumeProject env agents pid w).2)
         = (statusWrites (journal w) ++ [S_running; S_completed])%list).
Proof.
  intros Hreach Hp. pose proof (reachable_Inv env agents w Hreach) as HI.
  assert (Hpre : (Inv w /\ projects w !! pid = Some p)
                 /\ statusesWritten (statusWrites (journal w)) w) by done.
  split; [|split; [|split; [|split]]].
  - intros insertProject.
    destruct (createProject_run env insertProject w) as (id & now & i & ->).
    eexists. split; [done|]. split; [done|]. simpl. by rewrite lookup_insert_eq.
  - destruct (writes_pauseProject env pid p _ w Hpre) as (Hr & _ & Hs & Hl). done.
  - destruct (writes_startProject env agents pid p _ w Hpre) as (Hr & _ & Hs). done.
  - pose proof (writes_resumeProject env agents pid p _ w Hpre) as [_ Hs].
    destruct (resumeProject env agents pid w).1; destruct Hs as [_ Hl].
    + by exists [S_completed].
    + by exists [].
  - intros Hr. pose proof (writes_resumeProject env agents pid p _ w Hpre) as [_ Hs].
    rewrite Hr in Hs. done.
Qed.

End Lifecycle.

(** A run that ended with the status [error] is paused: the status leaves
    the terminal status; and it is started again although it is not
    [pending]: the status is set to [running] and the loop is run. *)
Lemma terminal_status_left :
  statusOf "id-0" started.2 = Some S_error
  /\ statusOf "id-0" (pauseProject backendDown "id-0" started.2).2 = Some S_paused
  /\ statusWrites
       (journal (startProject backendDown (agentsOf backendDown) "id-0" started.2).2)
     = [S_running; S_error; S_running; S_error]
  /\ executions
       (journal (startProject backendDown (agentsOf backendDown) "id-0" started.2).2)
     = [ ("Requirement", Failed (Some "quota exceeded"));
         ("Requirement", Failed (Some "quota exceeded")) ].
Proof. vm_compute. repeat split; reflexivity. Qed.

(** A run that ended with the status [completed] is started again, and ends
    with the status [error]. *)
Lemma completed_run_restarted :
  statusOf "id-0" completedRun.2 = Some S_completed
  /\ statusWrites
       (journal (startProject cleanRun (agentsOf cleanRun) "id-0" completedRun.2).2)
     = [S_running; S_completed; S_running; S_error]
  /\ statusOf "id-0" (startProject cleanRun (agentsOf cleanRun) "id-0" completedRun.2).2
     = Some S_error.
Proof. vm_compute. repeat split; reflexivity. Qed.

Lemma started_reachable : reachable backendDown (agentsOf backendDown) started.2.
Proof. unfold started, created. apply reach_start, reach_create, reach_empty. Qed.

Lemma status_transitions_witness :
  exists p,
    projects started.2 !! "id-0" = Some p /\ status p = S_error
    /\ hasStatus "id-0" S_paused (pauseProject backendDown "id-0" started.2).2
    /\ (startProject backendDown (agentsOf backendDown) "id-0" started.2).1 = Ok tt.
Proof.
  assert (Hl : exists p, projects started.2 !! "id-0" = Some p /\ status p = S_error).
  { eexists. split; [vm_compute; reflexivity | reflexivity]. }
  destruct Hl as (p & Hp & Hs). exists p. split; [exact Hp|]. split; [exact Hs|].
  destruct (status_transitions backendDown (agentsOf backendDown) started.2 "id-0" p
              started_reachable Hp) as (_ & (_ & Hpaused & _) & (Hstart & _) & _).
  split; [exact Hpaused | exact Hstart].
Defined.

(** * A stage that returns a failure *)

Section Failure.

Variable env : Env.
Variable agents : gmap string Agent.

Lemma updateProjectState_exact pid s w p :
  projects w !! pid = Some p ->
  updateProjectState env pid s w =
  (Ok tt,
   {| projects := <[pid := withState s (dateNow env (clock (io w))) p]> (projects w);
      projectFiles := projectFiles w;
      io := (newDate env (io w)).2;
      journal := journal w ++ [J_state pid s] |}).
Proof.
  intros H. unfold updateProjectState, bind, getProject. by rewrite H.
Qed.

Lemma executions_app j j' :
  executions (j ++ j') = (executions j ++ executions j')%list.
Proof.
  induction j as [|e j IH]; [done|]. destruct e; simpl; by rewrite IH.
Qed.

(** For every stored project and every registered agent that returns a
    failure: the iteration of the loop throws [Agent ... failed] and never
    enters the rest of the loop; the state it writes has [completedAgents]
    as before and two more entries in [errors], both for this agent: the
    reason that the agent returned, and the message of the error thrown;
    the status is left as it was; [agent-error] is the last event. *)
Lemma runAgent_failure pid project c s continue w p (agent : Agent) :
  projects w !! pid = Some p ->
  agents !! name c = Some agent ->
  (forall i, exists r i',
      agent pid (config project) (agentOutputs s) i = (Ok r, i') /\ success r = false) ->
  exists r w' p' t1 t2,
    runAgent env agents pid project c s continue w
    = (Threw ("Agent " ++ name c ++ " failed: " ++ showOptional (error r)), w')
    /\ projects w' !! pid = Some p'
    /\ status p' = status p
    /\ state p'
       = Some (pushError
                 {| e_agent := name c;
                    e_error := "Agent " ++ name c ++ " failed: " ++ showOptional (error r);
                    e_timestamp := t2 |}
                 (pushError
                    {| e_agent := name c;
                       e_error := orString (default EmptyString (error r)) "Unknown error";
                       e_timestamp := t1 |}
                    (setCurrentAgent (Some (name c)) s)))
    /\ executions (journal w')
       = (executions (journal w) ++ [(name c, Failed (error r))])%list
    /\ exists before,
         emitted (io w')
         = (before ++ [Ev_agent_error pid (name c)
                         ("Agent " ++ name c ++ " failed: " ++ showOptional (error r))])%list.
Proof.
  intros Hp Hagent Hfails.
  destruct (Hfails (emit (Ev_agent_started pid (name c)) (newDate env (io w)).2).2)
    as (r & i' & Hrun & Hfail).
  exists r. eexists _, _, _, _.
  split.
  { unfold runAgent.
    unfold bind at 1. rewrite (updateProjectState_exact pid _ w p Hp).
    unfold bind at 1. rewrite emitW_exact. rewrite Hagent.
    unfold bind at 1, execute at 1. cbn [io setIO agentOutputs setCurrentAgent].
    rewrite Hrun. rewrite Hfail.
    unfold bind at 1, liftIO at 1. cbn [fst snd io setIO record newDate].
    unfold onAgentError, bind at 1, liftIO at 1. cbn [fst snd io setIO record newDate].
    unfold bind at 1.
    erewrite updateProjectState_exact
      by (cbn [projects setIO record]; apply lookup_insert_eq).
    unfold bind at 1. rewrite emitW_exact. unfold throw. reflexivity. }
  cbn [projects journal io setIO record emit fst snd emitted newDate clock].
  split; [rewrite lookup_insert_eq; reflexivity|].
  split; [reflexivity|]. split; [reflexivity|]. split.
  - rewrite !executions_app. simpl. unfold verdict. rewrite Hfail.
    by rewrite !app_nil_r.
  - by eexists.
Qed.

End Failure.

(** ** C1 *)

(** C1, at the failing input.  The generation backend is down, so the
    Requirement stage reports failure.  When the run loop was entered with
    [resumeProject] (on a paused project): the failure is appended to
    [errors] and the state is written, [agent-error] is emitted, no further
    stage is executed and [completedAgents] is unchanged; but the call
    throws, the status stays [running] and no [project-error] is emitted.
    When the loop was entered with [startProject], the same failure sets the
    status [error] and emits [project-error]. *)
Theorem resume_failure_not_reported :
  pausedThenResumed.1 = Threw "Agent Requirement failed: quota exceeded"
  /\ executions (journal pausedThenResumed.2)
     = [ ("Requirement", Failed (Some "quota exceeded")) ]
  /\ (completedAgents <$> stateOf "id-0" pausedThenResumed.2) = Some []
  /\ (List.map e_agent <$> (errors <$> stateOf "id-0" pausedThenResumed.2))
     = Some [ "Requirement"; "Requirement" ]
  /\ lifecycle (emitted (io pausedThenResumed.2))
     = [ Ev_project_paused "id-0"; Ev_project_resumed "id-0";
         Ev_agent_started "id-0" "Requirement";
         Ev_agent_error "id-0" "Requirement" "Agent Requirement failed: quota exceeded" ]
  /\ statusOf "id-0" pausedThenResumed.2 = Some S_running
  /\ started.1 = Ok tt
  /\ lifecycle (emitted (io started.2))
     = [ Ev_project_started "id-0";
         Ev_agent_started "id-0" "Requirement";
         Ev_agent_error "id-0" "Requirement" "Agent Requirement failed: quota exceeded";
         Ev_project_error "id-0" "Agent Requirement failed: quota exceeded" ]
  /\ statusOf "id-0" started.2 = Some S_error.
Proof. vm_compute. repeat split; reflexivity. Qed.

(** ** C2 *)

(** C2, at the failing input.  The Requirement stage succeeds and the
    Frontend stage, alone, returns a failure; no other stage is executed.
    The [errors] log then holds two entries for the Frontend stage: the
    reason that the stage returned, and the message of the error that the
    loop throws for it. *)
Theorem failure_recorded_twice :
  executions (journal failedRun.2)
  = [ ("Requirement", Succeeded); ("Frontend", Failed (Some "quota exceeded")) ]
  /\ (errors <$> stateOf "id-0" failedRun.2)
     = Some [ {| e_agent := "Frontend"; e_error := "quota exceeded";
                 e_timestamp := "t10" |};
              {| e_agent := "Frontend";
                 e_error := "Agent Frontend failed: quota exceeded";
                 e_timestamp := "t11" |} ].
Proof. vm_compute. repeat split; reflexivity. Qed.

(** When the stage throws instead of returning a failure, the log holds one
    entry for it. *)
Lemma thrown_failure_recorded_once :
  executions (journal thrownRun.2) = [ ("Requirement", Thrown "socket hang up") ]
  /\ (errors <$> stateOf "id-0" thrownRun.2)
     = Some [ {| e_agent := "Requirement"; e_error := "socket hang up";
                 e_timestamp := "t4" |} ].
Proof. vm_compute. repeat split; reflexivity. Qed.

Section Stages.

Variable env : Env.
Variable h : Heuristics.

(** With the output of the Frontend stage at hand the Validator stage goes
    on to its validation request, and succeeds exactly when that request
    does. *)
Lemma validator_proceeds agentName cs pid cfg (prev : gmap string JsVal) :
  let code := Validator.codeToValidate (default JUndefined (prev !! "Frontend"))
                (default JUndefined (prev !! "Backend")) in
  let request := Validator.validationRequest code in
  let response := respond env (List.length cs) request validationSystemInstruction in
  Js.truthy (default JUndefined (prev !! "Frontend")) = true ->
  hoare (calls cs) (Validator.validatorExecute env h agentName pid cfg prev)
    (fun r i =>
       exists result rest,
         r = Ok result /\ success result = ai_success response
         /\ aiCalls i = (cs ++ (request, validationSystemInstruction) :: rest)%list).
Proof.
  intros code request response Hfe.
  destruct (ai_success response) eqn:Hok.
  - destruct (Validator.criticalIssues
                (Validator.parseValidationResults h (ai_content response)))
      as [|issue issues] eqn:Hissues.
    + eapply hoare_post; [by apply validator_passes|].
      intros r i [-> Hi]. eexists _, []. by split.
    + eapply hoare_post.
      * apply validator_fixes; [done..|]. fold code request response.
        by rewrite Hissues.
      * intros r i [-> Hi]. eexists _, [_]. by split.
  - eapply hoare_post; [by apply validator_call_fails|].
    intros r i [-> Hi]. eexists _, []. by split.
Qed.

(** ** C4 *)

(** C4, as amended.  The Frontend stage and the Backend stage check that the
    output of the Requirement stage is present (truthy) in [previousOutputs]
    and return the failure [Requirements not found from previous agent]
    otherwise, without calling the generation backend.  The Validator stage
    checks the output of the Frontend stage in the same way (failure
    [Frontend output not found from previous agent]); it does not check the
    output of the Backend stage: with the output of the Frontend stage
    present it sends its validation request whatever the output of the
    Backend stage is, absent or not, and it succeeds exactly when the
    generation backend answers that request. *)
Theorem predecessor_checks pid cfg (prev : gmap string JsVal) io :
  (Js.truthy (default JUndefined (prev !! "Requirement")) = false ->
   (frontendExecute env h "Frontend" pid cfg prev io).1
     = Ok (failure "Requirements not found from previous agent")
   /\ aiCalls (frontendExecute env h "Frontend" pid cfg prev io).2 = aiCalls io
   /\ (backendExecute env h "Backend" pid cfg prev io).1
     = Ok (failure "Requirements not found from previous agent")
   /\ aiCalls (backendExecute env h "Backend" pid cfg prev io).2 = aiCalls io)
  /\ (Js.truthy (default JUndefined (prev !! "Frontend")) = false ->
      (Validator.validatorExecute env h "Validator" pid cfg prev io).1
        = Ok (failure "Frontend output not found from previous agent")
      /\ aiCalls (Validator.validatorExecute env h "Validator" pid cfg prev io).2
         = aiCalls io)
  /\ (Js.truthy (default JUndefined (prev !! "Frontend")) = true ->
      let code := Validator.codeToValidate (default JUndefined (prev !! "Frontend"))
                    (default JUndefined (prev !! "Backend")) in
      let request := Validator.validationRequest code in
      let response :=
        respond env (List.length (aiCalls io)) request validationSystemInstruction in
      exists result rest,
        (Validator.validatorExecute env h "Validator" pid cfg prev io).1 = Ok result
        /\ success result = ai_success response
        /\ aiCalls (Validator.validatorExecute env h "Validator" pid cfg prev io).2
           = (aiCalls io ++ (request, validationSystemInstruction) :: rest)%list).
Proof.
  split; [|split].
  - intros Hreq.
    destruct (frontend_requires env h "Frontend" (aiCalls io) pid cfg prev Hreq io)
      as [Hf Hfc]; [done|].
    destruct (backend_requires env h "Backend" (aiCalls io) pid cfg prev Hreq io)
      as [Hb Hbc]; [done|].
    done.
  - intros Hfe.
    by destruct (validator_requires_frontend env h "Validator" (aiCalls io) pid cfg
                   prev Hfe io).
  - intros Hfe code request response.
    by apply (validator_proceeds "Validator" (aiCalls io) pid cfg prev Hfe io).
Qed.

(** ** C8 *)

(** C8.  Whenever the Backend stage, with the output of the Requirement stage
    at hand, finds that no backend is needed ([checkIfBackendNeeded] is
    false), it returns success with the output [frontendOnly] (type
    [frontend-only]) and no file, and does not call the generation backend.
    The Validator stage that finds this output for the Backend stage, next
    to the output of the Frontend stage, does not fail for a missing
    predecessor: it takes the run as frontend-only ([hasBackend] is false,
    the validation request says [NO BACKEND]), sends the validation request,
    and succeeds exactly when the generation backend answers it. *)
Theorem backend_skipped pid cfg (prev : gmap string JsVal) io :
  Js.truthy (default JUndefined (prev !! "Requirement")) = true ->
  checkIfBackendNeeded cfg (default JUndefined (prev !! "Requirement")) = Ok false ->
  (backendExecute env h "Backend" pid cfg prev io).1
    = Ok {| success := true; output := Some frontendOnly;
            error := None; files := None |}
  /\ aiCalls (backendExecute env h "Backend" pid cfg prev io).2 = aiCalls io
  /\ forall (prev' : gmap string JsVal) io',
       prev' !! "Backend" = Some frontendOnly ->
       Js.truthy (default JUndefined (prev' !! "Frontend")) = true ->
       let code := Validator.codeToValidate
                     (default JUndefined (prev' !! "Frontend")) frontendOnly in
       let request :=
         validationPrompt (Js.toString (Validator.cv_frontend code)) EmptyString false in
       let response :=
         respond env (List.length (aiCalls io')) request validationSystemInstruction in
       Validator.hasBackend code = false
       /\ exists result rest,
            (Validator.validatorExecute env h "Validator" pid cfg prev' io').1
              = Ok result
            /\ success result = ai_success response
            /\ (success result = false -> error result = ai_error response)
            /\ aiCalls (Validator.validatorExecute env h "Validator" pid cfg prev' io').2
               = (aiCalls io' ++ (request, validationSystemInstruction) :: rest)%list.
Proof.
  intros Hreq Hneeds.
  destruct (backend_skips env h "Backend" (aiCalls io) pid cfg prev Hreq Hneeds io)
    as [Hr Hc]; [done|].
  split; [done|]. split; [done|].
  intros prev' io' Hbe Hfe code request response. split; [done|].
  pose proof (validator_proceeds "Validator" (aiCalls io') pid cfg prev' Hfe io' eq_refl)
    as (result & rest & Hres & Hsucc & Hcalls).
  rewrite Hbe in Hsucc, Hcalls. simpl in Hsucc, Hcalls.
  exists result, rest. split; [done|]. split; [done|]. split; [|done].
  intros Hfail. rewrite Hfail in Hsucc.
  pose proof (validator_call_fails env h "Validator" (aiCalls io') pid cfg prev' Hfe)
    as Hcf.
  rewrite Hbe in Hcf. simpl in Hcf.
  destruct (Hcf (eq_sym Hsucc) io' eq_refl) as [Hr' _].
  rewrite Hres in Hr'. injection Hr' as ->.
  change (Validator.validationRequest _) with request in Hsucc |- *.
  fold response in Hsucc |- *. simpl.
  unfold response, respond in Hsucc |- *.
  destruct (aiGenerate env _ _ _) as [t|m]; [done|]. simpl.
  unfold orString. destruct (String.eqb m EmptyString) eqn:Hm; simpl; [done|].
  by rewrite Hm.
Qed.

(** ** C9 *)

(** C9, as amended.  With the output of the Frontend stage at hand and the
    validation request answered: whenever the parsed report contains at
    least one critical issue, the Validator stage makes exactly one more
    call to the generation backend, the fix request, and returns success
    with [isProductionReady] false and, as [fixes] and as files, the files
    that [fixesFrom] makes of the response to that call - which are none
    when that call fails; when the parsed report contains no critical issue,
    it makes no other call and returns success with [isProductionReady] true
    and no file. *)
Theorem validator_verdict pid cfg (prev : gmap string JsVal) io :
  let code := Validator.codeToValidate (default JUndefined (prev !! "Frontend"))
                (default JUndefined (prev !! "Backend")) in
  let request := Validator.validationRequest code in
  let response :=
    respond env (List.length (aiCalls io)) request validationSystemInstruction in
  let results := Validator.parseValidationResults h (ai_content response) in
  let fixRequest := Validator.fixRequest (Validator.criticalIssues results) code in
  let fixResponse :=
    respond env (S (List.length (aiCalls io))) fixRequest fixSystemInstruction in
  Js.truthy (default JUndefined (prev !! "Frontend")) = true ->
  ai_success response = true ->
  (Validator.criticalIssues results <> [] ->
   (Validator.validatorExecute env h "Validator" pid cfg prev io).1
     = Ok (Validator.needsFixes (ai_content response) results
             (Validator.fixesFrom fixResponse))
   /\ aiCalls (Validator.validatorExecute env h "Validator" pid cfg prev io).2
      = (aiCalls io ++ [ (request, validationSystemInstruction);
                         (fixRequest, fixSystemInstruction) ])%list
   /\ (ai_success fixResponse = false -> Validator.fixesFrom fixResponse = []))
  /\ (Validator.criticalIssues results = [] ->
      (Validator.validatorExecute env h "Validator" pid cfg prev io).1
        = Ok (Validator.productionReady (ai_content response) results)
      /\ aiCalls (Validator.validatorExecute env h "Validator" pid cfg prev io).2
         = (aiCalls io ++ [ (request, validationSystemInstruction) ])%list).
Proof.
  intros code request response results fixRequest fixResponse Hfe Hok. split.
  - intros Hsome.
    destruct (validator_fixes env h "Validator" (aiCalls io) pid cfg prev Hfe Hok Hsome
                io eq_refl) as [Hr Hc].
    split; [done|]. split; [done|].
    intros Hfail. unfold Validator.fixesFrom. by rewrite Hfail.
  - intros Hnone.
    by destruct (validator_passes env h "Validator" (aiCalls io) pid cfg prev Hfe Hok
                   Hnone io eq_refl).
Qed.

End Stages.

(** The Validator stage finds the output of the Frontend stage and none of
    the Backend stage, and the generation backend answers: the stage does
    not fail, it returns success. *)
Lemma validator_runs_without_backend :
  frontendAlone !! "Backend" = None
  /\ (validate approving frontendAlone).1
     = Ok (Validator.productionReady "Looks fine."
             {| Validator.criticalIssues := []; Validator.minorIssues := [];
                Validator.qualityScore := JNum 7 |}).
Proof. vm_compute. split; reflexivity. Qed.

Lemma predecessor_checks_witness :
  (frontendExecute approving plain "Frontend" "id-0" (ip_config landingPage)
     frontendAlone emptyIO).1
  = Ok (failure "Requirements not found from previous agent")
  /\ exists result,
       (Validator.validatorExecute approving plain "Validator" "id-0"
          (ip_config landingPage) frontendAlone emptyIO).1 = Ok result
       /\ success result = true.
Proof.
  destruct (predecessor_checks approving plain "id-0" (ip_config landingPage)
              frontendAlone emptyIO) as (Hreq & _ & Hval).
  split.
  - apply Hreq. vm_compute. reflexivity.
  - destruct Hval as (result & rest & Hres & Hsucc & _); [vm_compute; reflexivity|].
    exists result. split; [exact Hres|]. rewrite Hsucc. vm_compute. reflexivity.
Defined.

Lemma backend_skipped_witness :
  (backendExecute approving plain "Backend" "id-0" (ip_config landingPage)
     requirementAlone emptyIO).1
  = Ok {| success := true; output := Some frontendOnly; error := None; files := None |}
  /\ exists result,
       (Validator.validatorExecute approving plain "Validator" "id-0"
          (ip_config landingPage) backendSkipped emptyIO).1 = Ok result
       /\ success result = true.
Proof.
  destruct (backend_skipped approving plain "id-0" (ip_config landingPage)
              requirementAlone emptyIO) as (Hback & _ & Hval).
  - vm_compute. reflexivity.
  - vm_compute. reflexivity.
  - split; [exact Hback|].
    destruct (Hval backendSkipped emptyIO) as (_ & result & rest & Hres & Hsucc & _).
    + vm_compute. reflexivity.
    + vm_compute. reflexivity.
    + exists result. split; [exact Hres|]. rewrite Hsucc. vm_compute. reflexivity.
Defined.

(** The report names a critical issue and the fix request fails: the
    Validator stage returns success with [isProductionReady] false and an
    empty list of fixes and of files. *)
Lemma validator_without_fixes :
  Validator.criticalIssues (Validator.parseValidationResults plain report)
  = [ "Unescaped user input in the page title" ]
  /\ (validate reportOnly frontendAlone).1
     = Ok {| success := true;
             output :=
               Some (JObj [ ("validationReport", JStr report);
                            ("criticalIssues",
                              JArr [ JStr "Unescaped user input in the page title" ]);
                            ("minorIssues", JArr []);
                            ("qualityScore", JNum 7);
                            ("fixes", JArr []);
                            ("isProductionReady", JBool false) ]);
             error := None;
             files := Some [] |}
  /\ aiCalls (validate reportOnly frontendAlone).2
     = [ (Validator.validationRequest
            (Validator.codeToValidate frontendOutput JUndefined),
          validationSystemInstruction);
         (Validator.fixRequest [ "Unescaped user input in the page title" ]
            (Validator.codeToValidate frontendOutput JUndefined),
          fixSystemInstruction) ].
Proof. vm_compute. repeat split; reflexivity. Qed.

Lemma validator_verdict_witness :
  (Validator.validatorExecute reportAndRepair plain "Validator" "id-0"
     (ip_config landingPage) frontendAlone emptyIO).1
  = Ok (Validator.needsFixes report
          {| Validator.criticalIssues := [ "Unescaped user input in the page title" ];
             Validator.minorIssues := [];
             Validator.qualityScore := JNum 7 |}
          [ {| path := "/src/fixed/App.tsx";
               content := "export default function App() { return null }";
               language := Some "typescript" |} ]).
Proof.
  destruct (validator_verdict reportAndRepair plain "id-0" (ip_config landingPage)
              frontendAlone emptyIO) as [Hfix _].
  - vm_compute. reflexivity.
  - vm_compute. reflexivity.
  - destruct Hfix as (Hres & _ & _); [vm_compute; discriminate|].
    rewrite Hres. vm_compute. reflexivity.
Defined.

(** The whole run in which the Backend stage skips: all five stages are
    executed and succeed, the state holds [frontendOnly] as the output of the
    Backend stage, the generation backend is called three times (not by the
    Backend stage), and the third call is the validation request of a
    frontend-only run. *)
Lemma backend_skipped_run :
  completedRun.1 = Ok tt
  /\ statusOf "id-0" completedRun.2 = Some S_completed
  /\ executions (journal completedRun.2)
     = [ ("Requirement", Succeeded); ("Frontend", Succeeded); ("Backend", Succeeded);
         ("Validator", Succeeded); ("Deployment", Succeeded) ]
  /\ (stateOf "id-0" completedRun.2 ≫= fun s => agentOutputs s !! "Backend")
     = Some frontendOnly
  /\ (errors <$> stateOf "id-0" completedRun.2) = Some []
  /\ List.length (aiCalls (io completedRun.2)) = 3%nat
  /\ aiCalls (io completedRun.2) !! 2%nat
     = Some (validationPrompt component EmptyString false, validationSystemInstruction).
Proof. vm_compute. repeat split; reflexivity. Qed.
